(** * Paste filter for images: plugins/pastetools/filter/image.js

    A shallow embedding of the image paste filter of CKEditor 4 and the
    properties of its specification.

    Conventions of the embedding.
    - A JavaScript string is a list of characters ([list ascii]); the
      characters are the code units below 256.
    - [null] / [undefined] are [None]; the index [-1] returned by the
      [indexOf] family is [None] as well.
    - A regular expression literal of the source is a term of [regex],
      run by a backtracking matcher with the priorities of ECMAScript
      (greedy quantifiers, leftmost match).
    - Objects pushed to an array are references: a reference carries the
      address it was allocated at, and two references are the same object
      exactly when their addresses are equal. *)

From Stdlib Require Import Ascii String.
From stdpp Require Import base list strings.

Local Open Scope list_scope.

(** ** Strings *)

Abbreviation str := (list ascii).

Definition lit (s : string) : str := list_ascii_of_string s.

(** The characters that cannot be written inside a string literal. *)
Definition dquote : ascii := "034"%char.
Definition squote : ascii := "039"%char.
Definition backslash : ascii := "092"%char.

Definition streq (a b : str) : bool := bool_decide (a = b).

(** [needle] is a prefix of [s] (what [s.indexOf(needle) === 0] tests). *)
Fixpoint startsWith (needle s : str) : bool :=
  match needle, s with
  | [], _ => true
  | _ :: _, [] => false
  | a :: needle', b :: s' => Ascii.eqb a b && startsWith needle' s'
  end.

(** [String.prototype.indexOf]: position of the first occurrence. *)
Fixpoint indexOf (needle s : str) : option nat :=
  if startsWith needle s then Some 0
  else match s with
       | [] => None
       | _ :: s' => S <$> indexOf needle s'
       end.

(** Truthiness of a value that is a string or null. *)
Definition truthy (v : option str) : bool :=
  match v with
  | Some (_ :: _) => true
  | _ => false
  end.

(** [s.replace( /c/g, rep )] for a pattern [c] that matches one character
    and a replacement [rep] without [$]: every matching character is
    replaced. *)
Definition replaceEach (c : ascii -> bool) (rep : str) (s : str) : str :=
  flat_map (fun x => if c x then rep else [x]) s.

(** ** Regular expressions *)

(** The fragment used by the literals of the file: quantifiers apply to
    one-character classes only. *)
Inductive regex : Type :=
| Empty
| Lit (c : ascii)
| Class (p : ascii -> bool)
| Star (p : ascii -> bool)
| Plus (p : ascii -> bool)
| Opt (p : ascii -> bool)
| Cat (r1 r2 : regex)
| Group (r : regex).

Definition sequence (rs : list regex) : regex := foldr Cat Empty rs.

Definition lits (w : str) : regex := sequence (Lit <$> w).

(** Character classes. *)
Definition inRange (lo hi : nat) (c : ascii) : bool :=
  (lo <=? nat_of_ascii c) && (nat_of_ascii c <=? hi).

(** [\d] *)
Definition isDigit (c : ascii) : bool := inRange 48 57 c.
(** [\w] *)
Definition isWord (c : ascii) : bool :=
  inRange 97 122 c || inRange 65 90 c || isDigit c || Ascii.eqb c "_".
(** [\s]: tab, line feed, vertical tab, form feed, carriage return, space
    and no-break space. *)
Definition isSpace (c : ascii) : bool :=
  inRange 9 13 c || Ascii.eqb c " " || (nat_of_ascii c =? 160).
Definition isChar (a : ascii) (c : ascii) : bool := Ascii.eqb c a.
(** [[^a]] *)
Definition notChar (a : ascii) (c : ascii) : bool := negb (Ascii.eqb c a).
(** The class of the two quote characters. *)
Definition isQuote (c : ascii) : bool := Ascii.eqb c dquote || Ascii.eqb c squote.

Section Matcher.
Context {A : Type}.

(** Greedy repetition of a class: the longest run first, then shorter
    ones. *)
Fixpoint star (p : ascii -> bool) (s : str) (k : str -> option A) : option A :=
  match s with
  | c :: s' =>
      if p c then
        match star p s' k with
        | Some a => Some a
        | None => k s
        end
      else k s
  | [] => k s
  end.

(** [exec r s caps k]: match [r] at the start of [s], then continue with
    [k] on the rest of the input and the captures made so far; a
    failing continuation makes the matcher backtrack. *)
Fixpoint exec (r : regex) (s : str) (caps : list str)
    (k : str -> list str -> option A) : option A :=
  match r with
  | Empty => k s caps
  | Lit c =>
      match s with
      | x :: s' => if Ascii.eqb x c then k s' caps else None
      | [] => None
      end
  | Class p =>
      match s with
      | x :: s' => if p x then k s' caps else None
      | [] => None
      end
  | Star p => star p s (fun s' => k s' caps)
  | Plus p =>
      match s with
      | x :: s' => if p x then star p s' (fun s'' => k s'' caps) else None
      | [] => None
      end
  | Opt p =>
      match s with
      | x :: s' =>
          if p x then
            match k s' caps with
            | Some a => Some a
            | None => k s caps
            end
          else k s caps
      | [] => k s caps
      end
  | Cat r1 r2 => exec r1 s caps (fun s' caps' => exec r2 s' caps' k)
  | Group r =>
      exec r s caps
        (fun s' caps' => k s' (caps' ++ [take (length s - length s') s]))
  end.
End Matcher.

(** The result of a successful [RegExp.prototype.exec]. *)
Record MatchResult := {
  before : str;       (* input up to the match (its length is [index]) *)
  matched : str;      (* [item[0]] *)
  groups : list str;  (* [item[1]], [item[2]], ... *)
  after : str         (* input from [lastIndex] on *)
}.

(** Match at the start of the input. *)
Definition matchAt (r : regex) (s : str) : option (list str * str) :=
  exec r s [] (fun rest caps => Some (caps, rest)).

(** Leftmost match. *)
Fixpoint search (r : regex) (s : str) : option MatchResult :=
  match matchAt r s with
  | Some (caps, rest) =>
      Some {| before := []; matched := take (length s - length rest) s;
              groups := caps; after := rest |}
  | None =>
      match s with
      | [] => None
      | c :: s' =>
          (fun m => {| before := c :: before m; matched := matched m;
                       groups := groups m; after := after m |}) <$> search r s'
      end
  end.

(** [regexp.test( s )] *)
Definition test (r : regex) (s : str) : bool :=
  match search r s with
  | Some _ => true
  | None => false
  end.

(** ** Image types *)

Module RecognizableImageType.
Record t := { marker : regex; type : str }.
End RecognizableImageType.

Definition supportedImageTypes : list str :=
  [ lit "image/png"; lit "image/jpeg" ].

Definition recognizableImageTypes : list RecognizableImageType.t :=
  [ {| RecognizableImageType.marker := lits (lit "\pngblip");
       RecognizableImageType.type := lit "image/png" |};
    {| RecognizableImageType.marker := lits (lit "\jpegblip");
       RecognizableImageType.type := lit "image/jpeg" |};
    {| RecognizableImageType.marker := lits (lit "\emfblip");
       RecognizableImageType.type := lit "image/emf" |};
    {| RecognizableImageType.marker := Cat (lits (lit "\wmetafile")) (Class isDigit);
       RecognizableImageType.type := lit "image/wmf" |} ].

(** Modelled from the spec: [CKEDITOR.tools.array.find] returns the first
    element that passes the test (first match wins). *)
Definition getImageType (imageContent : str) : str :=
  match List.find (fun t => test (RecognizableImageType.marker t) imageContent)
          recognizableImageTypes with
  | Some extractedType => RecognizableImageType.type extractedType
  | None => lit "unknown"
  end.

(** [CKEDITOR.tools.array.indexOf( supportedImageTypes, imageType ) !== -1] *)
Definition isSupportedType (imageType : str) : bool :=
  bool_decide (imageType ∈ supportedImageTypes).

(** ** Collaborators

    The filter calls code that lives outside this file; it is taken as
    given through three interfaces. *)

Module Group.
Record t := { content : str }.
End Group.

(** [CKEDITOR.plugins.pastetools.filters.common.rtf].  [getGroups]
    answers [None] when its result is falsy. *)
Class RtfFilter := {
  removeGroups : str -> str -> str;
  getGroups : str -> str -> option (list Group.t);
  extractGroupContent : str -> str
}.

(** [CKEDITOR.tools]: the two conversions, defined on strings and on byte
    arrays. *)
Class Tools := {
  convertHexStringToBytes : str -> list N;
  convertBytesToBase64 : list N -> str
}.

(** The regular expression engine of the host, for the one pattern that is
    assembled at run time.  [replaceFirst pattern subject replacement] is
    [subject.replace( new RegExp( pattern ), replacement )], and [None]
    when the constructor rejects the pattern with a SyntaxError. *)
Class RegExpEngine := {
  replaceFirst : str -> str -> str -> option str
}.

(** Modelled from the spec: [CKEDITOR.tools.array.indexOf] with a
    predicate is the linear scan for the first element that satisfies it;
    [None] stands for [-1]. *)
Fixpoint findIndex {A : Type} (p : A -> bool) (l : list A) : option nat :=
  match l with
  | [] => None
  | x :: l' => if p x then Some 0 else S <$> findIndex p l'
  end.

(** [array.splice( index, 1, item )] *)
Definition splice1 {A : Type} (index : nat) (item : A) (l : list A) : list A :=
  take index l ++ item :: drop (S index) l.

(** ** Completions and reports *)

Inductive Exception := TypeError | SyntaxError.

Inductive Completion (A : Type) :=
| Normal (a : A)
| Throw (e : Exception).
Arguments Normal {A} a.
Arguments Throw {A} e.

(** The calls of [CKEDITOR.error], with their payload. *)
Inductive Report :=
| FailedImageExtraction (rtf html : nat)  (* 'pastetools-failed-image-extraction' *)
| UnsupportedImage (type : str) (index : nat).  (* 'pastetools-unsupported-image' *)

Record Outcome := { value : Completion str; reports : list Report }.

(** ** Image records *)

Module ImageData.
Record t := { id : option str; hex : option str; type : str }.
End ImageData.

(** A reference to an image record. *)
Record Ref := { addr : nat; obj : ImageData.t }.

(** The array under construction and the next free address. *)
Record ExtractState := { ret : list Ref; next : nat }.

(** [/\\blipuid (\w+)\}/] *)
Definition blipUidRegex : regex :=
  sequence [ lits (lit "\blipuid "); Group (Plus isWord); Lit "}" ].

(** [/\\bliptag(-?\d+)/] *)
Definition blipTagRegex : regex :=
  sequence [ lits (lit "\bliptag"); Group (Cat (Opt (isChar "-")) (Plus isDigit)) ].

Definition getImageId (image : str) : option str :=
  match search blipUidRegex image, search blipTagRegex image with
  | Some blipUidMatch, _ => groups blipUidMatch !! 0
  | None, Some blipTagMatch => groups blipTagMatch !! 0
  | None, None => None
  end.

Definition getImageIndex (ret : list Ref) (id : option str) : option nat :=
  match id with
  | None => None
  | Some id =>
      findIndex (fun image => bool_decide (ImageData.id (obj image) = Some id)) ret
  end.

(** [currentImage.indexOf( '\defshp' ) !== -1] *)
Definition isWordArtShape (currentImage : str) : bool :=
  match indexOf (lit "\defshp") currentImage with
  | Some _ => true
  | None => false
  end.

Section Extract.
Context `{RtfFilter}.

Definition getImageContent (image : str) : str :=
  let content := extractGroupContent image in
  replaceEach isSpace [] content.

(** The record built from a group, allocated at [address]. *)
Definition newImageData (address : nat) (currentImage : str) : Ref :=
  let imageId := getImageId currentImage in
  let imageType := getImageType currentImage in
  {| addr := address;
     obj := {| ImageData.id := imageId;
               ImageData.hex :=
                 if isSupportedType imageType
                 then Some (getImageContent currentImage) else None;
               ImageData.type := imageType |} |}.

(** One turn of the loop of [extractFromRtf].  [found] is
    [ret[ imageDataIndex ]]; the test [imageDataIndex === ret.length - 1]
    is written [S imageDataIndex = ret.length]. *)
Definition extractStep (st : ExtractState) (wholeImage : Group.t) : ExtractState :=
  let currentImage := Group.content wholeImage in
  let imageId := getImageId currentImage in
  let imageType := getImageType currentImage in
  let imageDataIndex := getImageIndex (ret st) imageId in
  let found := imageDataIndex ≫= (fun i => ret st !! i) in
  let isAlreadyExtracted :=
    match found with
    | Some image => truthy (ImageData.hex (obj image))
    | None => false
    end in
  let isDuplicated :=
    isAlreadyExtracted &&
    match found with
    | Some image => streq (ImageData.type (obj image)) imageType
    | None => false
    end in
  let isAlternateFormat :=
    isAlreadyExtracted &&
    match found, imageDataIndex with
    | Some image, Some i =>
        negb (streq (ImageData.type (obj image)) imageType) &&
        (S i =? length (ret st))
    | _, _ => false
    end in
  if isDuplicated then
    match found with
    | Some image => {| ret := ret st ++ [image]; next := next st |}
    | None => st
    end
  else if isAlternateFormat || isWordArtShape currentImage then st
  else
    match imageDataIndex with
    | Some i =>
        {| ret := splice1 i (newImageData (next st) currentImage) (ret st);
           next := S (next st) |}
    | None =>
        {| ret := ret st ++ [newImageData (next st) currentImage];
           next := S (next st) |}
    end.

Definition extractFromGroups (wholeImages : list Group.t) : ExtractState :=
  foldl extractStep {| ret := []; next := 0 |} wholeImages.

Definition extractFromRtf (rtfContent : str) : list Ref :=
  let rtfContent :=
    removeGroups rtfContent
      (lit "(?:(?:header|footer)[lrf]?|nonshppict|shprslt)") in
  match getGroups rtfContent (lit "pict") with
  | None => []
  | Some wholeImages => ret (extractFromGroups wholeImages)
  end.
End Extract.

(** ** Scanning the HTML *)

(** The pattern of [extractTagsFromHtml]: the text [<img], one or more
    characters other than [>], the attribute name [src=] with its opening
    double quote, a captured run of characters other than the double
    quote, and one or more characters other than [>]. *)
Definition imgTagRegex : regex :=
  sequence [ lits (lit "<img"); Plus (notChar ">");
        lits (lit "src=" ++ [dquote]);
        Group (Plus (notChar dquote)); Plus (notChar ">") ].

(** The loop [while ( item = regexp.exec( html ) )] of a regexp with the
    [g] flag: every turn searches from the end of the previous match.
    [turns] bounds the number of turns. *)
Fixpoint execLoop (turns : nat) (regexp : regex) (html : str) : list str :=
  match turns with
  | 0 => []
  | S turns' =>
      match search regexp html with
      | Some item => default [] (groups item !! 0) :: execLoop turns' regexp (after item)
      | None => []
      end
  end.

(** A match of the pattern is not empty, so the loop makes at most
    [length html] turns that find one, and one more that does not. *)
Definition extractTagsFromHtml (html : str) : list str :=
  execLoop (S (length html)) imgTagRegex html.

(** ** The editor *)

(** What the filter reads of the editor: [editor.activeFilter], which can
    be missing, and its method [check]. *)
Module Filter.
Record t := { check : str -> bool }.
End Filter.

Module Editor.
Record t := { activeFilter : option Filter.t }.
End Editor.

(** ** Encoding, reconciling, and the filter *)

Section PasteFilter.
Context `{RtfFilter} `{Tools} `{RegExpEngine}.

(** A payload that is null is not a string: handing it to
    [convertHexStringToBytes] is a TypeError. *)
Definition createSrcWithBase64 (img : ImageData.t) : Completion (option str) :=
  if negb (isSupportedType (ImageData.type img)) then Normal None
  else if truthy (Some (ImageData.type img)) then
    match ImageData.hex img with
    | Some hex =>
        Normal (Some (lit "data:" ++ ImageData.type img ++ lit ";base64," ++
                      convertBytesToBase64 (convertHexStringToBytes hex)))
    | None => Throw TypeError
    end
  else Normal None.

(** [CKEDITOR.tools.array.map] with a callback that can throw. *)
Fixpoint mapCompletion {A B : Type} (f : A -> Completion B) (l : list A)
    : Completion (list B) :=
  match l with
  | [] => Normal []
  | x :: l' =>
      match f x with
      | Throw e => Throw e
      | Normal y =>
          match mapCompletion f l' with
          | Throw e => Throw e
          | Normal ys => Normal (y :: ys)
          end
      end
  end.

(** The source text of the pattern that locates a tag. *)
Definition imgPattern (imgTag : str) : str :=
  let escapedPath := replaceEach (isChar backslash) [backslash; backslash] imgTag in
  lit "(<img [^>]*src=[" ++ [dquote; squote] ++ lit "]?)" ++ escapedPath.

(** The body of the loop of [handleRtfImages] at index [i]: the new
    [html] (or an exception) and what it reported. *)
Definition rewriteTag (imgTags : list str) (newSrcValues : list (option str))
    (hexImages : list Ref) (i : nat) (html : str) : Completion str * list Report :=
  match imgTags !! i with
  | None => (Throw TypeError, [])
  | Some imgTag =>
      if bool_decide (indexOf (lit "file://") imgTag = Some 0) then
        match mjoin (newSrcValues !! i) with
        | Some (c :: newSrcValue) =>
            match replaceFirst (imgPattern imgTag) html
                    (lit "$1" ++ c :: newSrcValue) with
            | Some html' => (Normal html', [])
            | None => (Throw SyntaxError, [])
            end
        | _ =>
            match hexImages !! i with
            | Some image =>
                (Normal html, [UnsupportedImage (ImageData.type (obj image)) i])
            | None => (Throw TypeError, [])
            end
        end
      else (Normal html, [])
  end.

(** The loop [for ( i = 0; i < imgTags.length; i++ )], from index [i]
    with [n] turns to go. *)
Fixpoint rewriteFrom (imgTags : list str) (newSrcValues : list (option str))
    (hexImages : list Ref) (n i : nat) (html : str) (log : list Report) : Outcome :=
  match n with
  | 0 => {| value := Normal html; reports := log |}
  | S n' =>
      match rewriteTag imgTags newSrcValues hexImages i html with
      | (Normal html', said) =>
          rewriteFrom imgTags newSrcValues hexImages n' (S i) html' (log ++ said)
      | (Throw e, said) => {| value := Throw e; reports := log ++ said |}
      end
  end.

Definition handleRtfImages (html rtf : str) (imgTags : list str) : Outcome :=
  let hexImages := extractFromRtf rtf in
  if length hexImages =? 0 then {| value := Normal html; reports := [] |}
  else
    match mapCompletion createSrcWithBase64 (obj <$> hexImages) with
    | Throw e => {| value := Throw e; reports := [] |}
    | Normal newSrcValues =>
        if negb (length imgTags =? length newSrcValues) then
          {| value := Normal html;
             reports := [FailedImageExtraction (length hexImages) (length imgTags)] |}
        else
          rewriteFrom imgTags newSrcValues hexImages (length imgTags) 0 html []
    end.

Definition handleBlobImages (editor : Editor.t) (html : str) : Outcome :=
  {| value := Normal html; reports := [] |}.

(** [CKEDITOR.pasteFilters.image] *)
Definition image (html : str) (editor : Editor.t) (rtf : str) : Outcome :=
  if match Editor.activeFilter editor with
     | Some activeFilter => negb (Filter.check activeFilter (lit "img[src]"))
     | None => false
     end
  then {| value := Normal html; reports := [] |}
  else
    let imgTags := extractTagsFromHtml html in
    if length imgTags =? 0 then {| value := Normal html; reports := [] |}
    else if truthy (Some rtf) then handleRtfImages html rtf imgTags
    else handleBlobImages editor html.
End PasteFilter.

(** ** Reference collaborators

    Executable stand-ins for the three interfaces, to run the filter on
    concrete clipboard contents. *)

Module Reference.

(** *** RTF groups *)

(** Modelled from the spec: the group primitives of
    [filters.common.rtf] are not part of this file.  A group is a
    balanced-brace region introduced by a control word; a backslash
    escapes the character after it. *)

(** The scanner is outside a group of interest ([depth = 0]) or inside
    one, [depth] braces deep.  [opens s] tells whether a group of
    interest opens at the head of [s]; [keep] tells whether that group
    is collected (as opposed to deleted). *)
Fixpoint scanGroups (opens : str -> bool) (keep : bool) (escaped : bool)
    (depth : nat) (current : str) (s : str) : list str * str :=
  match s with
  | [] => ([], [])
  | c :: s' =>
      match depth with
      | 0 =>
          if opens s then scanGroups opens keep false 1 [c] s'
          else
            let '(found, outside) := scanGroups opens keep false 0 [] s' in
            (found, c :: outside)
      | S d =>
          let current := current ++ [c] in
          if escaped then scanGroups opens keep false depth current s'
          else if Ascii.eqb c backslash then scanGroups opens keep true depth current s'
          else if Ascii.eqb c "{" then scanGroups opens keep false (S depth) current s'
          else if Ascii.eqb c "}" then
            match d with
            | 0 =>
                let '(found, outside) := scanGroups opens keep false 0 [] s' in
                (if keep then current :: found else found, outside)
            | S _ => scanGroups opens keep false d current s'
            end
          else scanGroups opens keep false depth current s'
      end
  end.

(** A group introduced by one of the control words [names]. *)
Definition opensWith (names : list str) (s : str) : bool :=
  existsb (fun name => startsWith ("{"%char :: backslash :: name) s) names.

(** Modelled from the spec: [getGroups( rtf, name )] is the ordered
    sequence of the balanced-brace groups that start with the control
    word [name]. *)
Definition getGroups (rtf name : str) : option (list Group.t) :=
  Some (Group.Build_t <$> (scanGroups (opensWith [name]) true false 0 [] rtf).1).

(** Modelled from the spec: [removeGroups( rtf, pattern )] deletes every
    balanced-brace group whose control word matches [pattern].  The
    pattern the filter passes matches the control words that begin with
    [header], [footer], [nonshppict] or [shprslt]. *)
Definition removeGroups (rtf pattern : str) : str :=
  (scanGroups
     (opensWith [lit "header"; lit "footer"; lit "nonshppict"; lit "shprslt"])
     false false 0 [] rtf).2.

(** Modelled from the spec: [extractGroupContent( group )] is the inner
    text of the group, without its control words and its nested
    groups. *)
Fixpoint innerText (inWord : bool) (depth : nat) (s : str) : str :=
  match s with
  | [] => []
  | c :: s' =>
      if Ascii.eqb c "{" then innerText false (S depth) s'
      else if Ascii.eqb c "}" then innerText false (pred depth) s'
      else
        match depth with
        | 1 =>
            if Ascii.eqb c backslash then innerText true 1 s'
            else if inWord && (isWord c || Ascii.eqb c "-") then innerText true 1 s'
            else c :: innerText false 1 s'
        | _ => innerText false depth s'
        end
  end.

Definition extractGroupContent (group : str) : str := innerText false 0 group.

#[export] Instance rtfFilter : RtfFilter :=
  Build_RtfFilter removeGroups getGroups extractGroupContent.

(** *** Hexadecimal and Base64 *)

Definition hexValue (c : ascii) : N :=
  let n := N_of_ascii c in
  if isDigit c then (n - 48)%N
  else if inRange 97 102 c then (n - 87)%N
  else if inRange 65 70 c then (n - 55)%N
  else 0%N.

(** Modelled from the spec: [hexToBytes( hex )], two digits a byte. *)
Fixpoint convertHexStringToBytes (hexString : str) : list N :=
  match hexString with
  | a :: b :: rest => (16 * hexValue a + hexValue b)%N :: convertHexStringToBytes rest
  | [a] => [hexValue a]
  | [] => []
  end.

Definition base64Chars : str :=
  lit "ABCDEFGHIJKLMNOPQRSTUVWXYZabcdefghijklmnopqrstuvwxyz0123456789+/".

Definition base64Char (n : N) : ascii :=
  default "="%char (base64Chars !! N.to_nat n).

(** Modelled from the spec: [bytesToBase64( bytes )], three bytes to
    four characters, padded with [=]. *)
Fixpoint convertBytesToBase64 (bytesArray : list N) : str :=
  match bytesArray with
  | a :: b :: c :: rest =>
      base64Char (a / 4) :: base64Char ((a mod 4) * 16 + b / 16)
      :: base64Char ((b mod 16) * 4 + c / 64) :: base64Char (c mod 64)
      :: convertBytesToBase64 rest
  | [a; b] =>
      [ base64Char (a / 4); base64Char ((a mod 4) * 16 + b / 16);
        base64Char ((b mod 16) * 4); "="%char ]
  | [a] => [ base64Char (a / 4); base64Char ((a mod 4) * 16); "="%char; "="%char ]
  | [] => []
  end%N.

#[export] Instance tools : Tools :=
  Build_Tools convertHexStringToBytes convertBytesToBase64.

(** *** Patterns assembled at run time *)

(** The pattern of [handleRtfImages] is the group
    [(<img [^>]*src=[..]?)], whose class holds the two quote characters,
    followed by the path of the tag with its backslashes doubled. *)
Definition imgPrefix : str :=
  lit "(<img [^>]*src=[" ++ [dquote; squote] ++ lit "]?)".

Definition imgPrefixRegex : regex :=
  Group (sequence [ lits (lit "<img "); Star (notChar ">"); lits (lit "src=");
               Opt isQuote ]).

(** The characters that are operators of the pattern syntax. *)
Definition isOperator (c : ascii) : bool :=
  bool_decide (c ∈ lit "^$.*+?()[]{}|").

(** [.] matches every character but the line terminators. *)
Definition notLineTerminator (c : ascii) : bool :=
  negb (Ascii.eqb c "010" || Ascii.eqb c "013").

(** The path part of a pattern: a doubled backslash is a backslash, [.]
    is any character, every other character that is not an operator is
    itself.  A path with another operator is answered with [None]: that
    is what the engine does with an unclosed parenthesis, but not with
    every such path (it accepts most of them), so this stand-in is exact
    on the paths without operators other than [.] and on the paths that
    the engine rejects. *)
Fixpoint parsePath (path : str) : option regex :=
  match path with
  | [] => Some Empty
  | c :: path' =>
      if Ascii.eqb c backslash then
        match path' with
        | c' :: path'' =>
            if Ascii.eqb c' backslash
            then Cat (Lit backslash) <$> parsePath path''
            else None
        | [] => None
        end
      else if Ascii.eqb c "." then Cat (Class notLineTerminator) <$> parsePath path'
      else if isOperator c then None
      else Cat (Lit c) <$> parsePath path'
  end.

Definition parsePattern (pattern : str) : option regex :=
  if startsWith imgPrefix pattern
  then Cat imgPrefixRegex <$> parsePath (drop (length imgPrefix) pattern)
  else None.

Definition digitValue (c : ascii) : nat := nat_of_ascii c - 48.

(** The replacement text of [String.prototype.replace]: [$$], [$&],
    the text before ([$] and a backquote) and after ([$] and a quote)
    the match, and the captures [$n] and [$nn]. *)
Fixpoint substitution (m : MatchResult) (replacement : str) : str :=
  match replacement with
  | [] => []
  | c :: rest =>
      if Ascii.eqb c "$" then
        match rest with
        | d :: rest' =>
            if Ascii.eqb d "$" then "$"%char :: substitution m rest'
            else if Ascii.eqb d "&" then matched m ++ substitution m rest'
            else if Ascii.eqb d "`" then before m ++ substitution m rest'
            else if Ascii.eqb d squote then after m ++ substitution m rest'
            else if isDigit d then
              let one := digitValue d in
              let capture n := default [] (groups m !! pred n) in
              let valid n := (1 <=? n) && (n <=? length (groups m)) in
              match rest' with
              | e :: rest'' =>
                  if isDigit e && valid (10 * one + digitValue e) then
                    capture (10 * one + digitValue e) ++ substitution m rest''
                  else if valid one then capture one ++ substitution m rest'
                  else c :: substitution m rest
              | [] => if valid one then capture one else [c; d]
              end
            else c :: substitution m rest
        | [] => [c]
        end
      else c :: substitution m rest
  end.

(** [subject.replace( new RegExp( pattern ), replacement )] for the
    patterns of the fragment above.  It is only run on paths without
    operators, and on one path with an unclosed parenthesis. *)
Definition replaceFirst (pattern subject replacement : str) : option str :=
  regexp ← parsePattern pattern;
  Some match search regexp subject with
       | Some m => before m ++ substitution m replacement ++ after m
       | None => subject
       end.

#[export] Instance regExpEngine : RegExpEngine := Build_RegExpEngine replaceFirst.
End Reference.

(** * Specification side *)

(** ** What a regular expression matches *)

(** [matches r w caps]: the text [w] is matched by [r], and the groups of
    [r] captured [caps] on the way. *)
Inductive matches : regex -> str -> list str -> Prop :=
| matches_empty : matches Empty [] []
| matches_lit c : matches (Lit c) [c] []
| matches_class p c : p c = true -> matches (Class p) [c] []
| matches_star p w : Forall (fun c => p c = true) w -> matches (Star p) w []
| matches_plus p w :
    w <> [] -> Forall (fun c => p c = true) w -> matches (Plus p) w []
| matches_opt_none p : matches (Opt p) [] []
| matches_opt_some p c : p c = true -> matches (Opt p) [c] []
| matches_cat r1 r2 w1 w2 caps1 caps2 :
    matches r1 w1 caps1 -> matches r2 w2 caps2 ->
    matches (Cat r1 r2) (w1 ++ w2) (caps1 ++ caps2)
| matches_group r w caps : matches r w caps -> matches (Group r) w (caps ++ [w]).

(** [pre] is the text before the leftmost match of [r] in [s]. *)
Definition leftmost (r : regex) (s pre : str) : Prop :=
  forall pre' w cs post,
    s = pre' ++ w ++ post -> matches r w cs -> length pre <= length pre'.

(** [s] begins with [prefix]. *)
Definition beginsWith (prefix s : str) : Prop := exists rest, s = prefix ++ rest.

(** [w] occurs in [s]. *)
Definition contains (w s : str) : Prop := exists pre post, s = pre ++ w ++ post.

(** ** What the tag scanner looks for *)

(** [m] is an occurrence of an image tag with the source [v]: the text
    [<img], at least one character other than [>], the attribute name
    [src=] and a double quote, the non-empty value [v] free of double
    quotes, and at least one more character other than [>]. *)
Definition Occurrence (m v : str) : Prop :=
  exists a b,
    m = lit "<img" ++ a ++ (lit "src=" ++ [dquote]) ++ v ++ b /\
    a <> [] /\ Forall (fun c => c <> ">"%char) a /\
    v <> [] /\ Forall (fun c => c <> dquote) v /\
    b <> [] /\ Forall (fun c => c <> ">"%char) b.

(** [Scanned html vs]: [vs] are the sources of the occurrences of [html]
    in document order: each one is the leftmost in what is left of the
    input after the one before it, and no occurrence is left at the end. *)
Inductive Scanned : str -> list str -> Prop :=
| Scanned_done html :
    (forall pre m v post, html = pre ++ m ++ post -> ~ Occurrence m v) ->
    Scanned html []
| Scanned_next pre m v post vs :
    Occurrence m v ->
    (forall pre' m' v' post',
        pre ++ m ++ post = pre' ++ m' ++ post' -> Occurrence m' v' ->
        length pre <= length pre') ->
    Scanned post vs ->
    Scanned (pre ++ m ++ post) (v :: vs).

(** ** What the extractor keeps *)

(** The record at position [i] of [l] is the first one that carries the
    identity [id]. *)
Definition FirstWithId (l : list Ref) (id : str) (i : nat) (image : Ref) : Prop :=
  l !! i = Some image /\
  ImageData.id (obj image) = Some id /\
  forall j other, j < i -> l !! j = Some other -> ImageData.id (obj other) <> Some id.

(** The group is a duplicate of [image]: the first record of [l] with the
    identity of the group has a payload and the type of the group. *)
Definition DuplicateOf (l : list Ref) (wholeImage : Group.t) (image : Ref) : Prop :=
  exists id i,
    getImageId (Group.content wholeImage) = Some id /\
    FirstWithId l id i image /\
    truthy (ImageData.hex (obj image)) = true /\
    ImageData.type (obj image) = getImageType (Group.content wholeImage).

(** The payload of a record is present exactly when its type is
    supported. *)
Definition payloadIffSupported (img : ImageData.t) : Prop :=
  is_Some (ImageData.hex img) <-> ImageData.type img ∈ supportedImageTypes.

(** References with the same address are the same reference. *)
Definition Coherent (l : list Ref) : Prop :=
  forall r1 r2, r1 ∈ l -> r2 ∈ l -> addr r1 = addr r2 -> r1 = r2.

(** The references of a state point below the next free address, and
    their records satisfy [payloadIffSupported]. *)
Definition Inv (st : ExtractState) : Prop :=
  Forall (fun r => addr r < next st /\ payloadIffSupported (obj r)) (ret st).

(** The picture groups that [extractFromRtf] walks through. *)
Definition located `{RtfFilter} (rtfContent : str) : option (list Group.t) :=
  getGroups
    (removeGroups rtfContent (lit "(?:(?:header|footer)[lrf]?|nonshppict|shprslt)"))
    (lit "pict").

(** The located groups of [rtfContent] are the two groups [g1] and [g2],
    which share an identity marker and classify to the same type. *)
Definition SameImageTwice `{RtfFilter} (rtfContent : str) (g1 g2 : Group.t) : Prop :=
  located rtfContent = Some [g1; g2] /\
  (exists id, getImageId (Group.content g1) = Some id /\
              getImageId (Group.content g2) = Some id) /\
  getImageType (Group.content g1) = getImageType (Group.content g2).

(** The data URL of a payload. *)
Definition dataUrl `{Tools} (type hex : str) : str :=
  lit "data:" ++ type ++ lit ";base64," ++
  convertBytesToBase64 (convertHexStringToBytes hex).


(** ** Clipboard contents to run the filter on *)

Module Examples.
(** A picture group. *)
Definition pict (s : string) : Group.t := Group.Build_t (lit s).

(** An image element with the given source. *)
Definition img (src : string) : str :=
  lit "<img src=" ++ [dquote] ++ lit src ++ [dquote] ++ lit " >".

(** An editor without an active filter. *)
Definition editor : Editor.t := Editor.Build_t None.

(** The same PNG image inserted twice. *)
Definition rtfTwicePng : str :=
  lit "{\rtf1{\pict\pngblip{\*\blipuid 0a1b}8950}{\pict\pngblip{\*\blipuid 0a1b}8950}}".

(** The same EMF image inserted twice. *)
Definition rtfTwiceEmf : str :=
  lit "{\rtf1{\pict\emfblip{\*\blipuid 0a1b}0102}{\pict\emfblip{\*\blipuid 0a1b}0102}}".

(** The same PNG image twice, the first time in a WordArt shape. *)
Definition rtfShapeFirst : str :=
  lit "{\rtf1{\pict\pngblip\defshp{\*\blipuid 0a1b}8950}{\pict\pngblip{\*\blipuid 0a1b}8950}}".

(** The same PNG image twice, the first time without data. *)
Definition rtfEmptyFirst : str :=
  lit "{\rtf1{\pict\pngblip{\*\blipuid 0a1b}}{\pict\pngblip{\*\blipuid 0a1b}8950}}".

(** Two different PNG images. *)
Definition rtfTwoPng : str :=
  lit "{\rtf1{\pict\pngblip{\*\blipuid 0a1b}8950}{\pict\pngblip{\*\blipuid 0c2d}4e47}}".

(** An EMF image, then a PNG image. *)
Definition rtfEmfPng : str :=
  lit "{\rtf1{\pict\emfblip 0102}{\pict\pngblip 8950}}".

(** One PNG image. *)
Definition rtfOnePng : str := lit "{\rtf1{\pict\pngblip 8950}}".
End Examples.

(** ** Identity markers *)

(** [id] is a unique-id marker of [image]: a non-empty word after
    [\blipuid] and a space, closed by a brace. *)
Definition UidMarker (image id : str) : Prop :=
  id <> [] /\ Forall (fun c => isWord c = true) id /\
  contains (lit "\blipuid " ++ id ++ lit "}") image.

(** [id] is a tag marker of [image]: a decimal number, with an optional
    minus sign, right after [\bliptag]. *)
Definition TagMarker (image id : str) : Prop :=
  exists sign digits,
    id = sign ++ digits /\ (sign = [] \/ sign = ["-"%char]) /\
    digits <> [] /\ Forall (fun c => isDigit c = true) digits /\
    contains (lit "\bliptag" ++ id) image.

(** ** What the reconciler reports and rewrites *)

(** [report] is the report of an unsupported image: at some index, a tag
    that begins with [file://] faces a record whose type is not
    supported, and the report carries that type and that index. *)
Definition ReportedUnsupported (imgTags : list str) (hexImages : list Ref)
    (report : Report) : Prop :=
  exists i imgTag image,
    report = UnsupportedImage (ImageData.type (obj image)) i /\
    imgTags !! i = Some imgTag /\ beginsWith (lit "file://") imgTag /\
    hexImages !! i = Some image /\
    ImageData.type (obj image) ∉ supportedImageTypes.

(** Some tag that begins with [file://] faces a record of a supported
    type. *)
Definition Rewritable (imgTags : list str) (hexImages : list Ref) : Prop :=
  exists i imgTag image,
    imgTags !! i = Some imgTag /\ beginsWith (lit "file://") imgTag /\
    hexImages !! i = Some image /\
    ImageData.type (obj image) ∈ supportedImageTypes.

(** The reports of a loop that runs to its end: one for every tag that
    begins with [file://] and faces a record whose type is not supported,
    from index [i] on. *)
Fixpoint unsupportedReportsFrom (i : nat) (imgTags : list str)
    (hexImages : list Ref) : list Report :=
  match imgTags, hexImages with
  | imgTag :: imgTags', image :: hexImages' =>
      (if startsWith (lit "file://") imgTag &&
          negb (isSupportedType (ImageData.type (obj image)))
       then [UnsupportedImage (ImageData.type (obj image)) i] else [])
      ++ unsupportedReportsFrom (S i) imgTags' hexImages'
  | _, _ => []
  end.

(** ** More clipboard contents *)

Module MoreExamples.
(** An EMF image, then a WMF image. *)
Definition rtfEmfWmf : str :=
  lit "{\rtf1{\pict\emfblip 0102}{\pict\wmetafile8 0304}}".

(** Three images: two PNG images with different identities, and a JPEG
    image without identity. *)
Definition threeImages : list Group.t :=
  [ Group.Build_t (lit "{\pict\pngblip{\*\blipuid 0a1b}8950}");
    Group.Build_t (lit "{\pict\pngblip{\*\blipuid 0c2d}4e47}");
    Group.Build_t (lit "{\pict\jpegblip ffd8}") ].
End MoreExamples.

(** * Properties *)

(** ** Strings *)

Lemma startsWith_spec needle s :
  startsWith needle s = true <-> exists post, s = needle ++ post.
Proof.
  revert s. induction needle as [|a needle IH]; intros s; simpl.
  - split; [eauto | done].
  - destruct s as [|b s].
    + split; [done | intros [post Hp]; discriminate].
    + rewrite andb_true_iff, IH, Ascii.eqb_eq. split.
      * intros [-> [post ->]]. eauto.
      * intros [post Hp]. injection Hp as -> ->. eauto.
Qed.

Lemma indexOf_zero needle s :
  indexOf needle s = Some 0 <-> startsWith needle s = true.
Proof.
  destruct s as [|c s]; simpl; destruct (startsWith needle _) eqn:E; try done.
  destruct (indexOf needle s); done.
Qed.

Lemma indexOf_beginsWith needle s :
  indexOf needle s = Some 0 <-> beginsWith needle s.
Proof. by rewrite indexOf_zero, startsWith_spec. Qed.

Lemma indexOf_contains needle s :
  indexOf needle s <> None <-> contains needle s.
Proof.
  induction s as [|c s IH].
  - simpl. destruct (startsWith needle []) eqn:E.
    + split; [intros _ | done]. apply startsWith_spec in E as [post E].
      exists [], post. done.
    + split; [done | intros (pre & post & E')]. exfalso.
      destruct pre, needle; discriminate.
  - simpl. destruct (startsWith needle (c :: s)) eqn:E.
    + split; [intros _ | done]. apply startsWith_spec in E as [post E].
      exists [], post. done.
    + assert (S <$> indexOf needle s <> None <-> indexOf needle s <> None) as ->.
      { destruct (indexOf needle s); done. }
      rewrite IH. split.
      * intros (pre & post & ->). exists (c :: pre), post. done.
      * intros (pre & post & E'). destruct pre as [|c' pre].
        -- exfalso. simpl in E'. rewrite E' in E.
           assert (startsWith needle (needle ++ post) = true) as E2
             by (apply startsWith_spec; eauto).
           congruence.
        -- injection E' as -> ->. exists pre, post. done.
Qed.

(** ** The matcher agrees with [matches] *)

Section MatcherFacts.
Context {A : Type}.
Implicit Types (k : str -> list str -> option A) (a : A).

Lemma star_sound p s (k : str -> option A) a :
  star p s k = Some a ->
  exists w rest, s = w ++ rest /\ Forall (fun c => p c = true) w /\ k rest = Some a.
Proof.
  induction s as [|c s IH]; simpl.
  - intros Hk. exists [], []. done.
  - destruct (p c) eqn:Hc.
    + destruct (star p s k) eqn:Hs.
      * intros [= ->]. destruct (IH eq_refl) as (w & rest & -> & Hw & Hk).
        exists (c :: w), rest. split_and!; [done | by constructor | done].
      * intros Hk. exists [], (c :: s). done.
    + intros Hk. exists [], (c :: s). done.
Qed.

Lemma star_complete p s (k : str -> option A) :
  star p s k = None ->
  forall w rest, s = w ++ rest -> Forall (fun c => p c = true) w -> k rest = None.
Proof.
  induction s as [|c s IH]; simpl.
  - intros Hk w rest Hs _. symmetry in Hs. apply app_eq_nil in Hs as [-> ->]. done.
  - destruct (p c) eqn:Hc.
    + destruct (star p s k) eqn:Hs; [done |].
      intros Hk [|c' w] rest E Hw; simpl in E.
      * by subst.
      * injection E as <- ->. inversion_clear Hw. by eapply IH.
    + intros Hk [|c' w] rest E Hw; simpl in E.
      * by subst.
      * injection E as <- ->. inversion_clear Hw. congruence.
Qed.

Lemma exec_sound r : forall s caps k a,
  exec r s caps k = Some a ->
  exists w cs rest, s = w ++ rest /\ matches r w cs /\ k rest (caps ++ cs) = Some a.
Proof.
  induction r as [|c|p|p|p|p|r1 IH1 r2 IH2|r IH]; intros s caps k a; simpl.
  - intros Hk. exists [], [], s. rewrite app_nil_r. split_and!; [done | constructor | done].
  - destruct s as [|x s]; [done |]. destruct (Ascii.eqb x c) eqn:E; [|done].
    apply Ascii.eqb_eq in E as ->. intros Hk.
    exists [c], [], s. rewrite app_nil_r. split_and!; [done | constructor | done].
  - destruct s as [|x s]; [done |]. destruct (p x) eqn:E; [|done]. intros Hk.
    exists [x], [], s. rewrite app_nil_r. split_and!; [done | by constructor | done].
  - intros (w & rest & -> & Hw & Hk)%star_sound.
    exists w, [], rest. rewrite app_nil_r. split_and!; [done | by constructor | done].
  - destruct s as [|x s]; [done |]. destruct (p x) eqn:E; [|done].
    intros (w & rest & -> & Hw & Hk)%star_sound.
    exists (x :: w), [], rest. rewrite app_nil_r.
    split_and!; [done | constructor; [done | by constructor] | done].
  - assert (k s caps = Some a ->
            exists w cs rest, s = w ++ rest /\ matches (Opt p) w cs /\
                              k rest (caps ++ cs) = Some a) as Hskip.
    { intros Hk. exists [], [], s. rewrite app_nil_r.
      split_and!; [done | constructor | done]. }
    destruct s as [|x s]; [done |]. destruct (p x) eqn:E; [|done].
    destruct (k s caps) eqn:Hk; [|done]. intros [= ->].
    exists [x], [], s. rewrite app_nil_r. split_and!; [done | by constructor | done].
  - intros (w1 & cs1 & rest1 & -> & H1 & Hk)%IH1.
    apply IH2 in Hk as (w2 & cs2 & rest & -> & H2 & Hk).
    exists (w1 ++ w2), (cs1 ++ cs2), rest.
    rewrite <- !app_assoc. rewrite <- app_assoc in Hk.
    split_and!; [done | by constructor | done].
  - intros (w & cs & rest & -> & Hr & Hk)%IH.
    exists w, (cs ++ [w]), rest.
    rewrite length_app, Nat.add_sub, take_app_length, <- app_assoc in Hk.
    split_and!; [done | by constructor | done].
Qed.

Lemma exec_complete r : forall s caps k,
  exec r s caps k = None ->
  forall w cs rest, s = w ++ rest -> matches r w cs -> k rest (caps ++ cs) = None.
Proof.
  induction r as [|c|p|p|p|p|r1 IH1 r2 IH2|r IH]; intros s caps k; simpl.
  - intros Hk w cs rest -> Hm. inversion Hm; subst. by rewrite app_nil_r.
  - intros Hk w cs rest -> Hm. inversion Hm; subst. simpl in Hk.
    rewrite Ascii.eqb_refl in Hk. by rewrite app_nil_r.
  - intros Hk w cs rest -> Hm. inversion Hm as [| |? ? Hp| | | | | |]; subst.
    simpl in Hk. rewrite Hp in Hk. by rewrite app_nil_r.
  - intros Hk w cs rest -> Hm. inversion Hm; subst. rewrite app_nil_r.
    by eapply (star_complete _ _ _ Hk).
  - intros Hk w cs rest -> Hm. inversion Hm as [| | | |? ? Hne Hw| | | |]; subst.
    destruct w as [|x w]; [done |]. inversion_clear Hw as [|? ? Hx Hw'].
    simpl in Hk. rewrite Hx in Hk. rewrite app_nil_r.
    by eapply (star_complete _ _ _ Hk).
  - intros Hk w cs rest -> Hm.
    inversion Hm as [| | | | |?|? ? Hp| |]; subst; rewrite app_nil_r; simpl in Hk.
    + destruct rest as [|x rest]; [done |]. destruct (p x); [|done].
      by destruct (k rest caps).
    + rewrite Hp in Hk. by destruct (k rest caps).
  - intros Hk w cs rest -> Hm.
    inversion Hm as [| | | | | | |? ? w1 w2 cs1 cs2 H1 H2|]; subst.
    rewrite app_assoc. eapply IH2; [|done..].
    eapply (IH1 _ _ _ Hk w1 cs1 (w2 ++ rest)); [|done]. by rewrite app_assoc.
  - intros Hk w cs rest -> Hm. inversion Hm as [| | | | | | | |? ? cs' Hr]; subst.
    pose proof (IH _ _ _ Hk w cs' rest eq_refl Hr) as Hk'. simpl in Hk'.
    by rewrite length_app, Nat.add_sub, take_app_length, <- app_assoc in Hk'.
Qed.
End MatcherFacts.

Lemma matchAt_sound r s caps rest :
  matchAt r s = Some (caps, rest) -> exists w, s = w ++ rest /\ matches r w caps.
Proof.
  unfold matchAt. intros (w & cs & rest' & -> & Hm & [= <- <-])%exec_sound. eauto.
Qed.

Lemma matchAt_complete r s :
  matchAt r s = None -> forall w cs rest, s = w ++ rest -> ~ matches r w cs.
Proof.
  unfold matchAt. intros Hk w cs rest E Hm.
  by pose proof (exec_complete _ _ _ _ Hk w cs rest E Hm).
Qed.

Lemma take_matched (w rest : str) :
  take (length (w ++ rest) - length rest) (w ++ rest) = w.
Proof. by rewrite length_app, Nat.add_sub, take_app_length. Qed.

Lemma search_here r s caps rest :
  matchAt r s = Some (caps, rest) ->
  search r s = Some {| before := []; matched := take (length s - length rest) s;
                       groups := caps; after := rest |}.
Proof. intros E. destruct s; simpl; by rewrite E. Qed.

Lemma search_sound r s m :
  search r s = Some m ->
  s = before m ++ matched m ++ after m /\
  matches r (matched m) (groups m) /\
  leftmost r s (before m).
Proof.
  assert (forall s caps rest, matchAt r s = Some (caps, rest) ->
            s = take (length s - length rest) s ++ rest /\
            matches r (take (length s - length rest) s) caps) as Hhere.
  { intros s0 caps rest (w & -> & Hm)%matchAt_sound. by rewrite take_matched. }
  revert m. induction s as [|c s IH]; intros m.
  - destruct (matchAt r []) as [[caps rest]|] eqn:E.
    + rewrite (search_here _ _ _ _ E). intros [= <-].
      destruct (Hhere _ _ _ E). split_and!; [done | done | intros ? ? ? ? _ _; simpl; lia].
    + simpl. by rewrite E.
  - destruct (matchAt r (c :: s)) as [[caps rest]|] eqn:E.
    + rewrite (search_here _ _ _ _ E). intros [= <-].
      destruct (Hhere _ _ _ E). split_and!; [done | done | intros ? ? ? ? _ _; simpl; lia].
    + simpl. rewrite E.
      destruct (search r s) as [m'|] eqn:Hs; [|done]. intros [= <-]. simpl.
      destruct (IH _ eq_refl) as (Hsplit & Hm & Hleft).
      split_and!; [by f_equal | done |].
      intros [|c' pre'] w cs post E' Hw.
      * exfalso. exact (matchAt_complete _ _ E w cs post E' Hw).
      * injection E' as <- E'. simpl. apply le_n_S. by eapply Hleft.
Qed.

Lemma search_complete r s :
  search r s = None ->
  forall pre w cs post, s = pre ++ w ++ post -> ~ matches r w cs.
Proof.
  induction s as [|c s IH]; simpl.
  - destruct (matchAt r []) as [[caps rest]|] eqn:E; [done |].
    intros _ pre w cs post E' Hm. destruct pre; [|done].
    exact (matchAt_complete _ _ E w cs post E' Hm).
  - destruct (matchAt r (c :: s)) as [[caps rest]|] eqn:E; [done |].
    destruct (search r s) as [m'|] eqn:Hs; [done |]. intros _.
    intros [|c' pre] w cs post E' Hm.
    + exact (matchAt_complete _ _ E w cs post E' Hm).
    + injection E' as <- E'. exact (IH eq_refl _ _ _ _ E' Hm).
Qed.

Lemma test_spec r s :
  test r s = true <-> exists pre w cs post, s = pre ++ w ++ post /\ matches r w cs.
Proof.
  unfold test. destruct (search r s) as [m|] eqn:E.
  - apply search_sound in E as (E & Hm & _). split; [intros _ | done].
    by exists (before m), (matched m), (groups m), (after m).
  - split; [done |]. intros (pre & w & cs & post & E' & Hm).
    exfalso. exact (search_complete _ _ E _ _ _ _ E' Hm).
Qed.

Lemma matches_lits w v cs : matches (lits w) v cs <-> v = w /\ cs = [].
Proof.
  revert v cs. induction w as [|c w IH]; intros v cs.
  - split; [by inversion 1 | intros [-> ->]; constructor].
  - change (lits (c :: w)) with (Cat (Lit c) (lits w)). split.
    + inversion 1 as [| | | | | | |? ? ? ? ? ? H1 H2|]; subst.
      inversion H1; subst. apply IH in H2 as [-> ->]. done.
    + intros [-> ->]. apply (matches_cat (Lit c) (lits w) [c] w [] []).
      * constructor.
      * by apply IH.
Qed.

Lemma test_lits w s : test (lits w) s = true <-> contains w s.
Proof.
  rewrite test_spec. split.
  - intros (pre & v & cs & post & -> & [-> _]%matches_lits). by exists pre, post.
  - intros (pre & post & ->). exists pre, w, [], post. by rewrite matches_lits.
Qed.

Lemma test_lits_class w p s :
  test (Cat (lits w) (Class p)) s = true <->
  exists d, p d = true /\ contains (w ++ [d]) s.
Proof.
  rewrite test_spec. split.
  - intros (pre & v & cs & post & -> & Hm).
    inversion Hm as [| | | | | | |? ? ? ? ? ? H1 H2|]; subst.
    apply matches_lits in H1 as [-> ->]. inversion H2; subst.
    eexists. split; [done |]. by exists pre, post.
  - intros (d & Hd & pre & post & ->). exists pre, (w ++ [d]), ([] ++ []), post.
    split; [done |]. constructor; [by apply matches_lits | by constructor].
Qed.

(** ** ImageTypeClassifier *)

Lemma getImageType_cases content :
  getImageType content =
    if test (lits (lit "\pngblip")) content then lit "image/png"
    else if test (lits (lit "\jpegblip")) content then lit "image/jpeg"
    else if test (lits (lit "\emfblip")) content then lit "image/emf"
    else if test (Cat (lits (lit "\wmetafile")) (Class isDigit)) content
         then lit "image/wmf"
    else lit "unknown".
Proof.
  unfold getImageType, recognizableImageTypes. cbn [List.find RecognizableImageType.marker].
  repeat (match goal with |- context [test ?r content] => destruct (test r content) end;
          [reflexivity |]).
  reflexivity.
Qed.

(** C7. The classifier returns the type of the first marker of the list
    [\pngblip], [\jpegblip], [\emfblip], [\wmetafile] with a digit that
    occurs in the content: [image/png], [image/jpeg], [image/emf] and
    [image/wmf] respectively; and [unknown] when none of them occurs. *)
Theorem getImageType_first_marker (content : str) :
  let png := contains (lit "\pngblip") content in
  let jpeg := contains (lit "\jpegblip") content in
  let emf := contains (lit "\emfblip") content in
  let wmf := exists d, isDigit d = true /\ contains (lit "\wmetafile" ++ [d]) content in
  (png /\ getImageType content = lit "image/png") \/
  (~ png /\ jpeg /\ getImageType content = lit "image/jpeg") \/
  (~ png /\ ~ jpeg /\ emf /\ getImageType content = lit "image/emf") \/
  (~ png /\ ~ jpeg /\ ~ emf /\ wmf /\ getImageType content = lit "image/wmf") \/
  (~ png /\ ~ jpeg /\ ~ emf /\ ~ wmf /\ getImageType content = lit "unknown").
Proof.
  intros png jpeg emf wmf. rewrite getImageType_cases.
  destruct (test (lits (lit "\pngblip")) content) eqn:T1.
  { left. split; [by apply test_lits | done]. }
  assert (~ png) by (intros ?%test_lits; congruence).
  destruct (test (lits (lit "\jpegblip")) content) eqn:T2.
  { right; left. split_and!; [done | by apply test_lits | done]. }
  assert (~ jpeg) by (intros ?%test_lits; congruence).
  destruct (test (lits (lit "\emfblip")) content) eqn:T3.
  { do 2 right; left. split_and!; [done | done | by apply test_lits | done]. }
  assert (~ emf) by (intros ?%test_lits; congruence).
  destruct (test (Cat (lits (lit "\wmetafile")) (Class isDigit)) content) eqn:T4.
  { do 3 right; left. split_and!; [done..| by apply test_lits_class | done]. }
  assert (~ wmf) by (intros ?%test_lits_class; congruence).
  do 4 right. done.
Qed.

(** ** HtmlTagScanner *)

Lemma matches_cat_inv r1 r2 w cs :
  matches (Cat r1 r2) w cs ->
  exists w1 w2 c1 c2,
    w = w1 ++ w2 /\ cs = c1 ++ c2 /\ matches r1 w1 c1 /\ matches r2 w2 c2.
Proof. inversion 1; subst. eauto 10. Qed.

Lemma matches_plus_inv p w cs :
  matches (Plus p) w cs -> cs = [] /\ w <> [] /\ Forall (fun c => p c = true) w.
Proof. inversion 1; subst. done. Qed.

Lemma matches_group_inv r w cs :
  matches (Group r) w cs -> exists c, cs = c ++ [w] /\ matches r w c.
Proof. inversion 1; subst. eauto. Qed.

Lemma matches_empty_inv w cs : matches Empty w cs -> w = [] /\ cs = [].
Proof. inversion 1; subst. done. Qed.

Lemma notChar_Forall a (w : str) :
  Forall (fun c => notChar a c = true) w <-> Forall (fun c => c <> a) w.
Proof.
  apply Forall_iff. intros c. unfold notChar.
  rewrite negb_true_iff, Ascii.eqb_neq. done.
Qed.

Lemma matches_imgTagRegex m caps :
  matches imgTagRegex m caps <-> exists v, caps = [v] /\ Occurrence m v.
Proof.
  unfold imgTagRegex, sequence. cbn [foldr]. split.
  - intros (w1 & ? & c1 & ? & -> & -> & [-> ->]%matches_lits & H)%matches_cat_inv.
    apply matches_cat_inv in H as (a & ? & ? & ? & -> & -> & (-> & Ha & Fa)%matches_plus_inv & H).
    apply matches_cat_inv in H as (? & ? & ? & ? & -> & -> & [-> ->]%matches_lits & H).
    apply matches_cat_inv in H as (v & ? & ? & ? & -> & -> & (? & -> & Hv)%matches_group_inv & H).
    apply matches_plus_inv in Hv as (-> & Hv & Fv).
    apply matches_cat_inv in H as (b & ? & ? & ? & -> & -> & (-> & Hb & Fb)%matches_plus_inv & H).
    apply matches_empty_inv in H as [-> ->].
    exists v. split; [done |]. exists a, b. rewrite app_nil_r.
    rewrite notChar_Forall in Fa, Fv, Fb. done.
  - intros (v & -> & a & b & -> & Ha & Fa & Hv & Fv & Hb & Fb).
    rewrite <- notChar_Forall in Fa, Fv, Fb.
    apply (matches_cat _ _ _ _ [] [v]); [by apply matches_lits |].
    apply (matches_cat _ _ _ _ [] [v]); [by constructor |].
    apply (matches_cat _ _ _ _ [] [v]); [by apply matches_lits |].
    rewrite <- (app_nil_r b).
    apply (matches_cat _ _ _ _ [v] []).
    + apply (matches_group _ _ []). by constructor.
    + apply (matches_cat _ _ _ _ [] []); [by constructor | constructor].
Qed.

Lemma Occurrence_nonempty m v : Occurrence m v -> m <> [].
Proof. by intros (a & b & -> & _). Qed.

Lemma execLoop_scanned turns : forall html,
  length html < turns -> Scanned html (execLoop turns imgTagRegex html).
Proof.
  induction turns as [|turns IH]; intros html Hlen; [lia |]. simpl.
  destruct (search imgTagRegex html) as [item|] eqn:E.
  - apply search_sound in E as (Hsplit & (v & Hg & Hocc)%matches_imgTagRegex & Hleft).
    rewrite Hg. simpl. rewrite Hsplit. apply Scanned_next.
    + done.
    + rewrite <- Hsplit. intros pre' m' v' post' E' Hocc'.
      eapply Hleft; [done |]. apply matches_imgTagRegex. eauto.
    + apply IH. apply Occurrence_nonempty in Hocc.
      rewrite Hsplit, !length_app in Hlen.
      destruct (matched item); [done |]. simpl in Hlen. lia.
  - apply Scanned_done. intros pre m v post E' Hocc.
    eapply (search_complete _ _ E _ _ _ _ E'). apply matches_imgTagRegex. eauto.
Qed.

Lemma search_imgTagRegex_shorter html item :
  search imgTagRegex html = Some item -> length (after item) < length html.
Proof.
  intros (Hsplit & (v & _ & Hocc%Occurrence_nonempty)%matches_imgTagRegex & _)%search_sound.
  rewrite Hsplit, !length_app.
  destruct (matched item); [done |]. simpl. lia.
Qed.

(** The loop is over before its turns are used up: more turns give the
    same result. *)
Lemma execLoop_turns turns1 : forall turns2 html,
  length html < turns1 -> length html < turns2 ->
  execLoop turns1 imgTagRegex html = execLoop turns2 imgTagRegex html.
Proof.
  induction turns1 as [|turns1 IH]; intros [|turns2] html H1 H2; try lia. simpl.
  destruct (search imgTagRegex html) as [item|] eqn:E; [|done].
  apply search_imgTagRegex_shorter in E. f_equal. apply IH; lia.
Qed.

Lemma extractTagsFromHtml_unfold html :
  extractTagsFromHtml html =
    match search imgTagRegex html with
    | Some item => default [] (groups item !! 0) :: extractTagsFromHtml (after item)
    | None => []
    end.
Proof.
  unfold extractTagsFromHtml at 1. simpl.
  destruct (search imgTagRegex html) as [item|] eqn:E; [|done].
  apply search_imgTagRegex_shorter in E. f_equal. apply execLoop_turns; lia.
Qed.


(** ** ImageRecordExtractor *)

Lemma findIndex_Some {A} (p : A -> bool) l i :
  findIndex p l = Some i <->
  exists x, l !! i = Some x /\ p x = true /\
            forall j y, j < i -> l !! j = Some y -> p y = false.
Proof.
  revert i. induction l as [|x l IH]; intros i; simpl.
  - split; [done | by intros (? & ? & _)].
  - destruct (p x) eqn:Hx.
    + split.
      * intros [= <-]. exists x. split_and!; [done | done | intros; lia].
      * intros (y & Hy & Hpy & Hfirst). destruct i as [|i]; [done |].
        exfalso. specialize (Hfirst 0 x). simpl in Hfirst.
        rewrite Hfirst in Hx; [done | lia | done].
    + destruct (findIndex p l) as [i'|] eqn:Hf; simpl.
      * split.
        -- intros [= <-]. destruct (proj1 (IH i') eq_refl) as (y & Hy & Hpy & Hfirst).
           exists y. split_and!; [done | done |].
           intros [|j] z Hj Hz; simpl in Hz; [congruence |].
           eapply Hfirst; [|done]. lia.
        -- intros (y & Hy & Hpy & Hfirst). destruct i as [|i]; simpl in Hy; [congruence |].
           f_equal. assert (Some i' = Some i) as [= ->]; [|done].
           apply IH. exists y. split_and!; [done | done |].
           intros j z Hj Hz. apply (Hfirst (S j) z); [lia | done].
      * split; [done |]. intros (y & Hy & Hpy & Hfirst).
        destruct i as [|i]; simpl in Hy; [congruence |].
        assert (None = Some i) as E; [|done].
        apply IH. exists y. split_and!; [done | done |].
        intros j z Hj Hz. apply (Hfirst (S j) z); [lia | done].
Qed.

Lemma getImageIndex_Some l id i :
  getImageIndex l (Some id) = Some i <-> exists image, FirstWithId l id i image.
Proof.
  unfold getImageIndex, FirstWithId. rewrite findIndex_Some.
  split; intros (image & Hi & Hid & Hfirst); exists image.
  - split_and!; [done | by apply bool_decide_eq_true in Hid |].
    intros j other Hj Ho. by eapply bool_decide_eq_false, Hfirst.
  - split_and!; [done | by apply bool_decide_eq_true |].
    intros j other Hj Ho. by eapply bool_decide_eq_false, Hfirst.
Qed.

Lemma FirstWithId_unique l id i image i' image' :
  FirstWithId l id i image -> FirstWithId l id i' image' -> i = i' /\ image = image'.
Proof.
  intros H1 H2.
  assert (getImageIndex l (Some id) = Some i) as E1 by (apply getImageIndex_Some; eauto).
  assert (getImageIndex l (Some id) = Some i') as E2 by (apply getImageIndex_Some; eauto).
  assert (i = i') as <- by congruence.
  destruct H1 as (E & _), H2 as (E' & _). split; congruence.
Qed.

Lemma splice1_insert {A} i (x : A) l : i < length l -> splice1 i x l = <[i:=x]> l.
Proof. intros Hi. unfold splice1. by rewrite insert_take_drop. Qed.

Lemma streq_true a b : streq a b = true <-> a = b.
Proof. apply bool_decide_eq_true. Qed.

Lemma isSupportedType_true t : isSupportedType t = true <-> t ∈ supportedImageTypes.
Proof. apply bool_decide_eq_true. Qed.

Lemma isWordArtShape_true s : isWordArtShape s = true <-> contains (lit "\defshp") s.
Proof.
  unfold isWordArtShape. rewrite <- indexOf_contains.
  destruct (indexOf _ s); split; done.
Qed.

Section ExtractFacts.
Context `{RtfFilter}.
Implicit Types (st : ExtractState) (g : Group.t).

(** The turn for a group whose identity is not in the array. *)
Lemma extractStep_fresh st g :
  getImageIndex (ret st) (getImageId (Group.content g)) = None ->
  extractStep st g =
    if isWordArtShape (Group.content g) then st
    else {| ret := ret st ++ [newImageData (next st) (Group.content g)];
            next := S (next st) |}.
Proof. intros E. unfold extractStep. rewrite E. reflexivity. Qed.

(** The turn for a group whose identity is that of [ret[ i ]]. *)
Lemma extractStep_found st g i image :
  getImageIndex (ret st) (getImageId (Group.content g)) = Some i ->
  ret st !! i = Some image ->
  extractStep st g =
    let payload := truthy (ImageData.hex (obj image)) in
    let sameType := streq (ImageData.type (obj image)) (getImageType (Group.content g)) in
    if payload && sameType then {| ret := ret st ++ [image]; next := next st |}
    else if (payload && (negb sameType && (S i =? length (ret st))))
            || isWordArtShape (Group.content g) then st
    else {| ret := <[i := newImageData (next st) (Group.content g)]> (ret st);
            next := S (next st) |}.
Proof.
  intros E Hi. unfold extractStep. rewrite E. simpl. rewrite Hi.
  rewrite splice1_insert by (by eapply lookup_lt_Some). reflexivity.
Qed.

Lemma getImageIndex_found l id i :
  getImageIndex l id = Some i ->
  exists s image, id = Some s /\ FirstWithId l s i image.
Proof.
  destruct id as [s|]; [|done]. intros (image & Hf)%getImageIndex_Some. eauto.
Qed.

Lemma newImageData_payload address s : payloadIffSupported (obj (newImageData address s)).
Proof.
  unfold payloadIffSupported, newImageData. simpl.
  rewrite <- isSupportedType_true. destruct (isSupportedType _); split; done.
Qed.

Lemma Inv_weaken l n n' :
  n <= n' ->
  Forall (fun r => addr r < n /\ payloadIffSupported (obj r)) l ->
  Forall (fun r => addr r < n' /\ payloadIffSupported (obj r)) l.
Proof.
  intros Hn HF. eapply Forall_impl; [exact HF |]. intros r [? ?]. split; [lia | done].
Qed.

Lemma extractStep_Inv st g : Inv st -> Inv (extractStep st g).
Proof.
  unfold Inv. intros HI.
  assert (Forall (fun r => addr r < S (next st) /\ payloadIffSupported (obj r))
            [newImageData (next st) (Group.content g)]) as Hnew.
  { constructor; [|done]. split; [simpl; lia | apply newImageData_payload]. }
  destruct (getImageIndex (ret st) (getImageId (Group.content g))) as [i|] eqn:E.
  - destruct (getImageIndex_found _ _ _ E) as (s & image & _ & Hi & _).
    rewrite (extractStep_found _ _ _ _ E Hi). cbv zeta.
    repeat case_match; simpl; try done.
    + apply Forall_app. split; [done |]. constructor; [|done].
      eapply Forall_lookup_1 in HI; done.
    + apply Forall_insert; [by eapply Inv_weaken; [|done]; lia |].
      by inversion Hnew.
  - rewrite (extractStep_fresh _ _ E). case_match; simpl; [done |].
    apply Forall_app. split; [by eapply Inv_weaken; [|done]; lia | done].
Qed.

Lemma foldl_extractStep_Inv gs : forall st, Inv st -> Inv (foldl extractStep st gs).
Proof.
  induction gs as [|g gs IH]; intros st HI; simpl; [done |].
  by apply IH, extractStep_Inv.
Qed.

Lemma extractFromGroups_Inv gs : Inv (extractFromGroups gs).
Proof. apply foldl_extractStep_Inv. by constructor. Qed.

Lemma elem_of_insert_inv {A} (l : list A) i x y :
  y ∈ <[i:=x]> l -> y = x \/ y ∈ l.
Proof.
  intros [j Hj]%list_elem_of_lookup. destruct (decide (i = j)) as [-> | Hne].
  - destruct (decide (j < length l)).
    + rewrite list_lookup_insert_eq in Hj by done. left. congruence.
    + rewrite list_insert_ge in Hj by lia. right. by eapply list_elem_of_lookup_2.
  - rewrite list_lookup_insert_ne in Hj by done. right. by eapply list_elem_of_lookup_2.
Qed.

(** Addresses identify the records: the extracted references with the
    same address are the same reference. *)
Lemma extractStep_Coherent st g :
  Inv st -> Coherent (ret st) -> Coherent (ret (extractStep st g)).
Proof.
  intros HI HC.
  assert (forall r, r ∈ ret st -> addr r < next st) as Hold.
  { intros r Hr. unfold Inv in HI. rewrite Forall_forall in HI. by apply HI. }
  assert (forall l, (forall r, r ∈ l ->
                       r = newImageData (next st) (Group.content g) \/ r ∈ ret st) ->
                    Coherent l) as Hnew.
  { intros l Hl r1 r2 [-> | H1]%Hl [-> | H2]%Hl Haddr; [done | | | by apply HC].
    - apply Hold in H2. simpl in Haddr. lia.
    - apply Hold in H1. simpl in Haddr. lia. }
  destruct (getImageIndex (ret st) (getImageId (Group.content g))) as [i|] eqn:E.
  - destruct (getImageIndex_found _ _ _ E) as (s & image & _ & Hi & _).
    rewrite (extractStep_found _ _ _ _ E Hi). cbv zeta.
    repeat case_match; simpl; try done.
    + apply Hnew. intros r [Hr | ->%list_elem_of_singleton]%elem_of_app; right; [done |].
      by eapply list_elem_of_lookup_2.
    + apply Hnew. intros r Hr. by apply elem_of_insert_inv in Hr.
  - rewrite (extractStep_fresh _ _ E). case_match; simpl; [done |].
    apply Hnew. intros r [Hr | ->%list_elem_of_singleton]%elem_of_app; eauto.
Qed.

Lemma extractFromGroups_Coherent gs : Coherent (ret (extractFromGroups gs)).
Proof.
  induction gs as [|g gs IH] using rev_ind.
  - by intros r1 r2 ?%elem_of_nil.
  - unfold extractFromGroups in *. rewrite foldl_app. simpl.
    apply extractStep_Coherent; [apply (extractFromGroups_Inv gs) | done].
Qed.

Lemma extractFromGroups_snoc gs g :
  extractFromGroups (gs ++ [g]) = extractStep (extractFromGroups gs) g.
Proof. unfold extractFromGroups. by rewrite foldl_app. Qed.

(** The turns after a group start from the state that the group left. *)
Lemma extractFromGroups_app gs g later :
  extractFromGroups (gs ++ g :: later) =
    foldl extractStep (extractFromGroups (gs ++ [g])) later.
Proof. unfold extractFromGroups. by rewrite !foldl_app. Qed.

Lemma extractFromRtf_payload rtf :
  Forall (fun r => payloadIffSupported (obj r)) (extractFromRtf rtf).
Proof.
  unfold extractFromRtf. destruct (getGroups _ _) as [gs|]; [|by constructor].
  eapply Forall_impl; [apply extractFromGroups_Inv |]. by intros r [_ ?].
Qed.
End ExtractFacts.

Section ExtractClaims.
Context `{RtfFilter} `{Tools}.
Implicit Types (st : ExtractState) (g : Group.t).

Lemma extractFromRtf_located rtf :
  extractFromRtf rtf =
    match located rtf with
    | Some wholeImages => ret (extractFromGroups wholeImages)
    | None => []
    end.
Proof. reflexivity. Qed.

Lemma createSrcWithBase64_payload img :
  payloadIffSupported img ->
  (ImageData.type img ∈ supportedImageTypes ->
   exists hex, ImageData.hex img = Some hex /\
     createSrcWithBase64 img = Normal (Some (dataUrl (ImageData.type img) hex))) /\
  (ImageData.type img ∉ supportedImageTypes ->
   ImageData.hex img = None /\ createSrcWithBase64 img = Normal None).
Proof.
  unfold payloadIffSupported, createSrcWithBase64. rewrite <- isSupportedType_true.
  intros Hiff. destruct (isSupportedType (ImageData.type img)) eqn:Hs; simpl.
  - split; [intros _ | done]. destruct (proj2 Hiff eq_refl) as [hex Hhex].
    exists hex. split; [done |]. rewrite Hhex.
    destruct (ImageData.type img); [|done]. by vm_compute in Hs.
  - split; [done | intros _]. split; [|done].
    destruct (ImageData.hex img) eqn:Hhex; [|done].
    assert (false = true) by (apply Hiff; eauto). done.
Qed.

(** C10. Every record of the sequence returned by [extractFromRtf] has
    a payload exactly when its type is supported; [createSrcWithBase64]
    returns the data URL of the payload for the records of a supported
    type, which all have one, and null for the others. *)
Theorem extractFromRtf_payload_iff_supported (rtf : str) :
  Forall (fun r =>
    let img := obj r in
    (is_Some (ImageData.hex img) <-> ImageData.type img ∈ supportedImageTypes) /\
    (ImageData.type img ∈ supportedImageTypes ->
     exists hex, ImageData.hex img = Some hex /\
       createSrcWithBase64 img = Normal (Some (dataUrl (ImageData.type img) hex))) /\
    (ImageData.type img ∉ supportedImageTypes ->
     ImageData.hex img = None /\ createSrcWithBase64 img = Normal None))
    (extractFromRtf rtf).
Proof.
  eapply Forall_impl; [apply extractFromRtf_payload |].
  intros r Hr. cbv zeta. split; [exact Hr |]. by apply createSrcWithBase64_payload.
Qed.

Lemma getImageIndex_nil id : getImageIndex [] id = None.
Proof. by destruct id. Qed.

Lemma truthy_nonempty (s : str) : s <> [] -> truthy (Some s) = true.
Proof. by destruct s. Qed.

(** C4 (amended). When the located groups are two groups that share an
    identity marker and classify to the same supported type, and the
    first one is not a WordArt shape and has a non-empty payload, the
    extracted sequence has length 2 and its second element is the very
    reference that is its first element: one record was allocated. *)
Theorem duplicate_appended_by_reference (rtf : str) (g1 g2 : Group.t) :
  SameImageTwice rtf g1 g2 ->
  isSupportedType (getImageType (Group.content g1)) = true ->
  isWordArtShape (Group.content g1) = false ->
  getImageContent (Group.content g1) <> [] ->
  let image := newImageData 0 (Group.content g1) in
  extractFromGroups [g1; g2] = {| ret := [image; image]; next := 1 |} /\
  extractFromRtf rtf = [image; image].
Proof.
  intros (Hloc & (id & Hid1 & Hid2) & Htype) Hsup Hshape Hpayload image.
  assert (extractFromGroups [g1; g2] = {| ret := [image; image]; next := 1 |}) as E.
  { unfold extractFromGroups. simpl foldl.
    rewrite (extractStep_fresh _ g1) by apply getImageIndex_nil.
    rewrite Hshape. cbn [ret next app].
    assert (obj image = {| ImageData.id := Some id;
                           ImageData.hex := Some (getImageContent (Group.content g1));
                           ImageData.type := getImageType (Group.content g1) |}) as Hobj.
    { unfold image, newImageData. simpl. by rewrite Hsup, Hid1. }
    fold image.
    rewrite (extractStep_found _ g2 0 image).
    - cbv zeta. rewrite Hobj. cbn [ImageData.hex ImageData.type].
      rewrite truthy_nonempty by done.
      rewrite (proj2 (streq_true _ _) Htype). reflexivity.
    - rewrite Hid2. apply getImageIndex_Some. exists image.
      split_and!; [done | by rewrite Hobj | intros; lia].
    - done. }
  split; [done |]. rewrite extractFromRtf_located, Hloc. by rewrite E.
Qed.

(** C5 (amended). A group that contains [\defshp] never makes a record
    of its own.  It is discarded, leaving the sequence as it was,
    unless it is a duplicate (the first record with its identity has a
    payload and its type), in which case the reference to that record
    is appended. *)
Theorem wordArt_discarded_unless_duplicate (groups : list Group.t) (g : Group.t) :
  contains (lit "\defshp") (Group.content g) ->
  let st := extractFromGroups groups in
  let st' := extractFromGroups (groups ++ [g]) in
  next st' = next st /\
  (((forall image, ~ DuplicateOf (ret st) g image) /\ ret st' = ret st) \/
   (exists image, DuplicateOf (ret st) g image /\ ret st' = ret st ++ [image])).
Proof.
  intros Hshape%isWordArtShape_true st st'. unfold st'.
  rewrite extractFromGroups_snoc. fold st.
  destruct (getImageIndex (ret st) (getImageId (Group.content g))) as [i|] eqn:E.
  - destruct (getImageIndex_found _ _ _ E) as (id & image & Hid & Hfirst).
    rewrite (extractStep_found _ _ _ _ E (proj1 Hfirst)). cbv zeta.
    rewrite Hshape, orb_true_r.
    destruct (truthy _ && streq _ _) eqn:Hdup.
    + apply andb_true_iff in Hdup as [Hp Ht%streq_true].
      split; [done |]. right. exists image. split; [|done]. by exists id, i.
    + split; [done |]. left. split; [|done].
      intros image' (id' & i' & Hid' & Hfirst' & Hp & Ht).
      assert (id' = id) as -> by congruence.
      destruct (FirstWithId_unique _ _ _ _ _ _ Hfirst Hfirst') as [_ <-].
      rewrite Hp, (proj2 (streq_true _ _) Ht) in Hdup. done.
  - rewrite (extractStep_fresh _ _ E), Hshape.
    split; [done |]. left. split; [|done].
    intros image (id & i & Hid & Hfirst & _).
    rewrite Hid in E. assert (getImageIndex (ret st) (Some id) = Some i) as E'.
    { apply getImageIndex_Some. eauto. }
    congruence.
Qed.

End ExtractClaims.

(** ** HtmlRtfReconciler *)

Section ReconcileFacts.
Context `{RtfFilter} `{Tools} `{RegExpEngine}.
Implicit Types (imgTags : list str) (newSrcValues : list (option str))
  (hexImages : list Ref) (html : str) (log : list Report).

(** Encoding the records of an extracted sequence does not throw and
    keeps length and order. *)
Lemma mapCompletion_createSrcWithBase64 hexImages :
  Forall (fun r => payloadIffSupported (obj r)) hexImages ->
  exists newSrcValues,
    mapCompletion createSrcWithBase64 (obj <$> hexImages) = Normal newSrcValues /\
    length newSrcValues = length hexImages /\
    forall i image, hexImages !! i = Some image ->
      exists v, newSrcValues !! i = Some v /\
                createSrcWithBase64 (obj image) = Normal v.
Proof.
  induction 1 as [|r l Hr Hl (vs & Hvs & Hlen & Hnth)].
  - exists []. split_and!; [done | done | by intros ? ? ?].
  - destruct (createSrcWithBase64_payload _ Hr) as [Hsup Hnot].
    assert (exists v, createSrcWithBase64 (obj r) = Normal v) as [v Hv].
    { destruct (decide (ImageData.type (obj r) ∈ supportedImageTypes)) as [Hin|Hin].
      - destruct (Hsup Hin) as (hex & _ & ->). eauto.
      - destruct (Hnot Hin) as (_ & ->). eauto. }
    exists (v :: vs). rewrite fmap_cons. cbn [mapCompletion]. rewrite Hv, Hvs.
    split_and!; [done | by simpl; f_equal |].
    intros [|i] image Hi; simpl in Hi.
    + injection Hi as <-. eauto.
    + by apply Hnth.
Qed.

Lemma encoded rtf :
  exists newSrcValues,
    mapCompletion createSrcWithBase64 (obj <$> extractFromRtf rtf) = Normal newSrcValues /\
    length newSrcValues = length (extractFromRtf rtf) /\
    forall i image, extractFromRtf rtf !! i = Some image ->
      exists v, newSrcValues !! i = Some v /\
                createSrcWithBase64 (obj image) = Normal v.
Proof. apply mapCompletion_createSrcWithBase64, extractFromRtf_payload. Qed.

Lemma length_zero_nil {A} (l : list A) : (length l =? 0) = true <-> l = [].
Proof. destruct l; simpl; split; done. Qed.

(** With as many tags as records, [handleRtfImages] is its loop. *)
Lemma handleRtfImages_loop html rtf imgTags newSrcValues :
  length imgTags = length (extractFromRtf rtf) ->
  mapCompletion createSrcWithBase64 (obj <$> extractFromRtf rtf) = Normal newSrcValues ->
  handleRtfImages html rtf imgTags =
    rewriteFrom imgTags newSrcValues (extractFromRtf rtf) (length imgTags) 0 html [].
Proof.
  intros Hlen Hmap. unfold handleRtfImages.
  destruct (length (extractFromRtf rtf) =? 0) eqn:E.
  { apply Nat.eqb_eq in E. by rewrite Hlen, E. }
  rewrite Hmap. destruct (encoded rtf) as (vs & Hvs & Hlen' & _).
  assert (vs = newSrcValues) as -> by congruence.
  rewrite Hlen, Hlen', Nat.eqb_refl. simpl. by rewrite <- Hlen.
Qed.

(** C1. When the records extracted from the RTF are not empty and their
    number is not the number of tags, [handleRtfImages] reports the
    mismatch with both numbers and returns [html] as it was. *)
Theorem handleRtfImages_count_mismatch (html rtf : str) (imgTags : list str) :
  extractFromRtf rtf <> [] ->
  length (extractFromRtf rtf) <> length imgTags ->
  handleRtfImages html rtf imgTags =
    {| value := Normal html;
       reports := [FailedImageExtraction (length (extractFromRtf rtf))
                                         (length imgTags)] |}.
Proof.
  intros Hne Hlen. unfold handleRtfImages.
  destruct (length (extractFromRtf rtf) =? 0) eqn:E.
  { by apply length_zero_nil in E. }
  destruct (encoded rtf) as (vs & -> & Hlen' & _).
  rewrite Hlen'.
  destruct (length imgTags =? length (extractFromRtf rtf)) eqn:E'; [|done].
  apply Nat.eqb_eq in E'. congruence.
Qed.

(** The guard of the loop: the turn of a tag that does not begin with
    [file://] leaves the html as it is and reports nothing. *)
Lemma rewriteTag_skip imgTags newSrcValues hexImages i html imgTag :
  imgTags !! i = Some imgTag ->
  ~ beginsWith (lit "file://") imgTag ->
  rewriteTag imgTags newSrcValues hexImages i html = (Normal html, []).
Proof.
  intros Hi Hfile. unfold rewriteTag. rewrite Hi.
  rewrite bool_decide_eq_false_2; [done |]. by rewrite indexOf_beginsWith.
Qed.

Lemma rewriteFrom_no_file imgTags newSrcValues hexImages n : forall i html log,
  i + n <= length imgTags ->
  Forall (fun t => ~ beginsWith (lit "file://") t) imgTags ->
  rewriteFrom imgTags newSrcValues hexImages n i html log =
    {| value := Normal html; reports := log |}.
Proof.
  induction n as [|n IH]; intros i html log Hlen Hall; simpl; [done |].
  destruct (lookup_lt_is_Some_2 imgTags i) as [imgTag Hi]; [lia |].
  rewrite (rewriteTag_skip _ _ _ _ _ _ Hi).
  - rewrite app_nil_r. apply IH; [lia | done].
  - by eapply Forall_lookup_1 in Hall.
Qed.

(** Without a tag that begins with [file://], no turn rewrites. *)
Lemma handleRtfImages_no_file html rtf imgTags :
  Forall (fun t => ~ beginsWith (lit "file://") t) imgTags ->
  value (handleRtfImages html rtf imgTags) = Normal html.
Proof.
  intros Hall. unfold handleRtfImages.
  destruct (length (extractFromRtf rtf) =? 0); [done |].
  destruct (encoded rtf) as (vs & -> & _).
  destruct (negb _); [done |].
  by rewrite rewriteFrom_no_file.
Qed.

Lemma createSrcWithBase64_nonempty img src :
  createSrcWithBase64 img = Normal (Some src) -> src <> [].
Proof.
  unfold createSrcWithBase64. repeat case_match; try done. by intros [= <-].
Qed.

End ReconcileFacts.

(** ** PasteImageFilter *)

Section FilterFacts.
Context `{RtfFilter} `{Tools} `{RegExpEngine}.

Lemma image_no_file html editor rtf :
  Forall (fun t => ~ beginsWith (lit "file://") t) (extractTagsFromHtml html) ->
  value (image html editor rtf) = Normal html.
Proof.
  intros Hall. unfold image, handleBlobImages.
  repeat case_match; try done; by apply handleRtfImages_no_file.
Qed.

End FilterFacts.

(** ** The filter on concrete clipboard contents *)

Section Runs.
Import Reference Examples.

(** Whether a concrete string begins with a prefix is settled by running
    [indexOf]. *)
Ltac run_prefix := rewrite <- indexOf_beginsWith; by vm_compute.

(** A run of the theorem of C1: two records, one tag. *)
Lemma handleRtfImages_count_mismatch_witness :
  (extractFromRtf rtfTwicePng <> [] /\
   length (extractFromRtf rtfTwicePng) <> length [lit "file://a"]) /\
  handleRtfImages (img "file://a") rtfTwicePng [lit "file://a"] =
    {| value := Normal (img "file://a"); reports := [FailedImageExtraction 2 1] |}.
Proof.
  split; [split; by vm_compute |].
  rewrite (handleRtfImages_count_mismatch (img "file://a") rtfTwicePng [lit "file://a"]);
    by vm_compute.
Defined.

(** C2. The code at an input that breaks the claim: there are as many
    records as tags, the source of the first tag does not begin with
    [file://], and yet that source is rewritten in the output.  The turn
    of the second tag replaces the first text that matches its pattern,
    and that text lies inside the source of the first tag; the tag that
    does begin with [file://] keeps its path.  The same happens to a
    remote source whose query names the path. *)
Lemma non_file_src_rewritten :
  (let html := img "src=file://a" ++ img "file://a" in
   extractTagsFromHtml html = [lit "src=file://a"; lit "file://a"] /\
   length (extractFromRtf rtfTwoPng) = 2 /\
   ~ beginsWith (lit "file://") (lit "src=file://a") /\
   handleRtfImages html rtfTwoPng (extractTagsFromHtml html) =
     {| value := Normal (img "src=data:image/png;base64,Tkc=" ++ img "file://a");
        reports := [] |} /\
   extractTagsFromHtml (img "src=data:image/png;base64,Tkc=" ++ img "file://a") =
     [lit "src=data:image/png;base64,Tkc="; lit "file://a"]) /\
  (let html := img "http://host/view?src=file://a" ++ img "file://a" in
   extractTagsFromHtml html = [lit "http://host/view?src=file://a"; lit "file://a"] /\
   ~ beginsWith (lit "file://") (lit "http://host/view?src=file://a") /\
   handleRtfImages html rtfTwoPng (extractTagsFromHtml html) =
     {| value := Normal (img "http://host/view?src=data:image/png;base64,Tkc=" ++
                         img "file://a");
        reports := [] |}).
Proof.
  split; cbv zeta.
  - split_and!; [by vm_compute | by vm_compute | run_prefix | by vm_compute..].
  - split_and!; [by vm_compute | run_prefix | by vm_compute].
Qed.

(** C3. The code at an input that breaks the claim: two tags with the
    same path, the first one matched with an EMF image and the second
    one with a PNG image.  The conditions of the claim hold at index 0,
    and the unsupported image is reported with its type and that index.
    But the turn of the second tag replaces the first text that matches
    its pattern, which is the source of the first tag: the skipped tag is
    rewritten, and the later tag, whose record is supported, is not.
    With two different paths the same records give what the claim says:
    the first tag is kept and the second one is rewritten. *)
Lemma unsupported_skip_rewrites_skipped_tag :
  let html := img "file://a" ++ img "file://a" in
  let imgTags := extractTagsFromHtml html in
  (imgTags = [lit "file://a"; lit "file://a"] /\
   length imgTags = length (extractFromRtf rtfEmfPng) /\
   beginsWith (lit "file://") (lit "file://a") /\
   (exists image,
      extractFromRtf rtfEmfPng !! 0 = Some image /\
      ImageData.type (obj image) = lit "image/emf" /\
      createSrcWithBase64 (obj image) = Normal None) /\
   (exists image,
      extractFromRtf rtfEmfPng !! 1 = Some image /\
      createSrcWithBase64 (obj image) =
        Normal (Some (lit "data:image/png;base64,iVA=")))) /\
  handleRtfImages html rtfEmfPng imgTags =
    {| value := Normal (img "data:image/png;base64,iVA=" ++ img "file://a");
       reports := [UnsupportedImage (lit "image/emf") 0] |} /\
  handleRtfImages (img "file://a" ++ img "file://b") rtfEmfPng
      (extractTagsFromHtml (img "file://a" ++ img "file://b")) =
    {| value := Normal (img "file://a" ++ img "data:image/png;base64,iVA=");
       reports := [UnsupportedImage (lit "image/emf") 0] |}.
Proof.
  split_and!; try (by vm_compute); [run_prefix | eexists; by vm_compute..].
Qed.

(** C4, as stated, fails: two located groups with the same identity
    marker and the same type give a sequence of length 1 when the type
    is not supported, when the first group is a WordArt shape, and when
    the first group has no data. *)
Lemma same_image_twice_not_appended :
  (SameImageTwice rtfTwiceEmf
     (pict "{\pict\emfblip{\*\blipuid 0a1b}0102}")
     (pict "{\pict\emfblip{\*\blipuid 0a1b}0102}") /\
   length (extractFromRtf rtfTwiceEmf) = 1) /\
  (SameImageTwice rtfShapeFirst
     (pict "{\pict\pngblip\defshp{\*\blipuid 0a1b}8950}")
     (pict "{\pict\pngblip{\*\blipuid 0a1b}8950}") /\
   length (extractFromRtf rtfShapeFirst) = 1) /\
  (SameImageTwice rtfEmptyFirst
     (pict "{\pict\pngblip{\*\blipuid 0a1b}}")
     (pict "{\pict\pngblip{\*\blipuid 0a1b}8950}") /\
   length (extractFromRtf rtfEmptyFirst) = 1).
Proof.
  unfold SameImageTwice.
  split_and!; try (by vm_compute); exists (lit "0a1b"); by vm_compute.
Qed.

(** A run of the theorem of C4: the same PNG image twice. *)
Lemma duplicate_appended_by_reference_witness :
  let g := pict "{\pict\pngblip{\*\blipuid 0a1b}8950}" in
  (SameImageTwice rtfTwicePng g g /\
   isSupportedType (getImageType (Group.content g)) = true /\
   isWordArtShape (Group.content g) = false /\
   getImageContent (Group.content g) <> []) /\
  extractFromRtf rtfTwicePng =
    [ newImageData 0 (Group.content g); newImageData 0 (Group.content g) ].
Proof.
  intros g.
  assert (SameImageTwice rtfTwicePng g g) as Hsame.
  { unfold SameImageTwice.
    split_and!; try (by vm_compute); exists (lit "0a1b"); by vm_compute. }
  split; [split_and!; [done | by vm_compute..] |].
  apply (duplicate_appended_by_reference rtfTwicePng g g Hsame); by vm_compute.
Defined.

(** Two groups without an identity marker and with the same content: the
    two records are equal, the two references are not. *)
Lemma equal_records_distinct_references :
  let g := pict "{\pict\pngblip 8950}" in
  ret (extractFromGroups [g; g]) =
    [newImageData 0 (Group.content g); newImageData 1 (Group.content g)] /\
  obj (newImageData 0 (Group.content g)) = obj (newImageData 1 (Group.content g)) /\
  newImageData 0 (Group.content g) <> newImageData 1 (Group.content g).
Proof. by vm_compute. Qed.

(** C5, as stated, fails: the second group contains [\defshp] and adds
    an element to the sequence, the reference to the record of the
    first group. *)
Lemma wordArt_duplicate_appended :
  let g1 := pict "{\pict\pngblip{\*\blipuid 0a1b}8950}" in
  let g2 := pict "{\pict\pngblip\defshp{\*\blipuid 0a1b}8950}" in
  isWordArtShape (Group.content g2) = true /\
  ret (extractFromGroups [g1]) = [newImageData 0 (Group.content g1)] /\
  ret (extractFromGroups ([g1] ++ [g2])) =
    [newImageData 0 (Group.content g1); newImageData 0 (Group.content g1)].
Proof. by vm_compute. Qed.

(** A run of the theorem of C5: a WordArt shape after a PNG image. *)
Lemma wordArt_discarded_unless_duplicate_witness :
  let g1 := pict "{\pict\pngblip{\*\blipuid 0a1b}8950}" in
  let g2 := pict "{\pict\jpegblip\defshp{\*\blipuid 0c2d}ffd8}" in
  contains (lit "\defshp") (Group.content g2) /\
  next (extractFromGroups ([g1] ++ [g2])) = next (extractFromGroups [g1]).
Proof.
  intros g1 g2.
  assert (contains (lit "\defshp") (Group.content g2)) as Hshape.
  { by exists (lit "{\pict\jpegblip"), (lit "{\*\blipuid 0c2d}ffd8}"). }
  split; [done |].
  apply (wordArt_discarded_unless_duplicate [g1] g2 Hshape).
Defined.



(** C9. The code at an input that breaks the claim: two tags with the
    same path, the first one matched with an EMF image and the second
    one with a PNG image.  The first application rewrites the first tag
    (the first text that matches the pattern of the second tag) and
    leaves the second tag with its path; the second application, in
    which the rewritten tag is skipped, rewrites the second tag: its
    result is not the result of the first application. *)
Lemma image_not_idempotent :
  let html := img "file://a" ++ img "file://a" in
  let once := img "data:image/png;base64,iVA=" ++ img "file://a" in
  let twice := img "data:image/png;base64,iVA=" ++ img "data:image/png;base64,iVA=" in
  value (image html editor rtfEmfPng) = Normal once /\
  value (image once editor rtfEmfPng) = Normal twice /\
  once <> twice.
Proof. by vm_compute. Qed.

End Runs.


(** * Further properties of the code *)

(** ** Classifier and identity *)

(** X1. A group gets a payload exactly when its content has the PNG or
    the JPEG marker: the classified type is a supported one if and only
    if [\pngblip] or [\jpegblip] occurs in the content, whatever other
    markers occur. *)
Theorem supported_iff_png_or_jpeg_marker (content : str) :
  isSupportedType (getImageType content) = true <->
  contains (lit "\pngblip") content \/ contains (lit "\jpegblip") content.
Proof.
  rewrite getImageType_cases, <- !test_lits.
  destruct (test (lits (lit "\pngblip")) content); [by split; [left |] |].
  destruct (test (lits (lit "\jpegblip")) content); [by split; [right |] |].
  repeat case_match; split; try (by vm_compute); by intros [|].
Qed.

Lemma matches_lit_inv c w cs : matches (Lit c) w cs -> w = [c] /\ cs = [].
Proof. inversion 1; subst. done. Qed.

Lemma matches_opt_inv p w cs :
  matches (Opt p) w cs -> cs = [] /\ (w = [] \/ exists c, w = [c] /\ p c = true).
Proof. inversion 1; subst; eauto. Qed.

Lemma matches_cat_Empty r w cs : matches r w cs -> matches (Cat r Empty) w cs.
Proof.
  intros Hm. rewrite <- (app_nil_r w), <- (app_nil_r cs).
  constructor; [done | constructor].
Qed.

Lemma matches_blipUidRegex w caps :
  matches blipUidRegex w caps <->
  exists id, caps = [id] /\ id <> [] /\ Forall (fun c => isWord c = true) id /\
             w = lit "\blipuid " ++ id ++ lit "}".
Proof.
  unfold blipUidRegex, sequence. cbn [foldr]. split.
  - intros (? & ? & ? & ? & -> & -> & [-> ->]%matches_lits & H)%matches_cat_inv.
    apply matches_cat_inv in H
      as (id & ? & ? & ? & -> & -> & (? & -> & Hid)%matches_group_inv & H).
    apply matches_plus_inv in Hid as (-> & Hne & Hw).
    apply matches_cat_inv in H as (? & ? & ? & ? & -> & -> & [-> ->]%matches_lit_inv & H).
    apply matches_empty_inv in H as [-> ->]. exists id. done.
  - intros (id & -> & Hne & Hw & ->).
    apply (matches_cat _ _ _ _ [] [id]); [by apply matches_lits |].
    apply (matches_cat _ _ _ _ [id] []).
    + apply (matches_group _ _ []). by constructor.
    + apply (matches_cat _ _ [ "}"%char ] [] [] []); constructor.
Qed.

Lemma matches_blipTagRegex w caps :
  matches blipTagRegex w caps <->
  exists sign digits,
    caps = [sign ++ digits] /\ (sign = [] \/ sign = ["-"%char]) /\
    digits <> [] /\ Forall (fun c => isDigit c = true) digits /\
    w = lit "\bliptag" ++ sign ++ digits.
Proof.
  unfold blipTagRegex, sequence. cbn [foldr]. split.
  - intros (? & ? & ? & ? & -> & -> & [-> ->]%matches_lits & H)%matches_cat_inv.
    apply matches_cat_inv in H
      as (id & ? & ? & ? & -> & -> & (? & -> & Hid)%matches_group_inv & H).
    apply matches_empty_inv in H as [-> ->].
    apply matches_cat_inv in Hid
      as (sign & digits & ? & ? & -> & -> & (-> & Hsign)%matches_opt_inv & Hd).
    apply matches_plus_inv in Hd as (-> & Hne & Hd).
    exists sign, digits. rewrite !app_nil_r. split_and!; try done.
    destruct Hsign as [-> | (c & -> & Hc)]; [by left | right].
    by apply Ascii.eqb_eq in Hc as ->.
  - intros (sign & digits & -> & Hsign & Hne & Hd & ->).
    apply (matches_cat _ _ _ _ [] [sign ++ digits]); [by apply matches_lits |].
    apply matches_cat_Empty. apply (matches_group _ _ []).
    apply (matches_cat _ _ _ _ [] []); [|by constructor].
    destruct Hsign as [-> | ->]; by constructor.
Qed.

(** X2. The identity of a group is its unique-id marker when it has one,
    else its tag marker, else null: [getImageId] returns a word that
    stands between [\blipuid ] and a closing brace in the content; when
    no such word exists, a decimal number (with an optional minus sign)
    that follows [\bliptag]; and null exactly when the content has
    neither.  An identity is never the empty string. *)
Theorem getImageId_markers (image : str) :
  match getImageId image with
  | Some id =>
      id <> [] /\
      (UidMarker image id \/ ((forall u, ~ UidMarker image u) /\ TagMarker image id))
  | None => (forall u, ~ UidMarker image u) /\ (forall t, ~ TagMarker image t)
  end.
Proof.
  unfold getImageId.
  destruct (search blipUidRegex image) as [m|] eqn:Eu.
  - apply search_sound in Eu
      as (Hsplit & (id & -> & Hne & Hw & Hm)%matches_blipUidRegex & _).
    simpl. split; [done |]. left. split_and!; [done | done |].
    exists (before m), (after m). by rewrite <- Hm.
  - assert (forall u, ~ UidMarker image u) as Hnouid.
    { intros u (Hne & Hw & pre & post & E).
      eapply (search_complete _ _ Eu _ _ _ _ E). apply matches_blipUidRegex. eauto. }
    destruct (search blipTagRegex image) as [m|] eqn:Et.
    + apply search_sound in Et
        as (Hsplit & (sign & digits & -> & Hsign & Hne & Hd & Hm)%matches_blipTagRegex & _).
      simpl. split; [by destruct sign, digits |]. right. split; [done |].
      exists sign, digits. split_and!; try done.
      exists (before m), (after m). by rewrite <- Hm.
    + split; [done |]. intros t (sign & digits & -> & Hsign & Hne & Hd & pre & post & E).
      eapply (search_complete _ _ Et _ _ _ _ E). apply matches_blipTagRegex.
      by exists sign, digits.
Qed.

(** ** The extraction loop *)

Section ExtractMore.
Context `{RtfFilter}.
Implicit Types (st : ExtractState) (g : Group.t).

(** The four ways a turn can end: the group is discarded, the reference
    to the record with its identity is appended, the record built from
    the group replaces that record, or it is appended. *)
Lemma extractStep_cases st g :
  let index := getImageIndex (ret st) (getImageId (Group.content g)) in
  let new := newImageData (next st) (Group.content g) in
  extractStep st g = st \/
  (exists i image,
      index = Some i /\ ret st !! i = Some image /\
      truthy (ImageData.hex (obj image)) = true /\
      extractStep st g = {| ret := ret st ++ [image]; next := next st |}) \/
  (exists i,
      index = Some i /\ i < length (ret st) /\
      extractStep st g = {| ret := <[i:=new]> (ret st); next := S (next st) |}) \/
  (index = None /\
   extractStep st g = {| ret := ret st ++ [new]; next := S (next st) |}).
Proof.
  intros index new. unfold index, new.
  destruct (getImageIndex (ret st) (getImageId (Group.content g))) as [i|] eqn:E.
  - destruct (getImageIndex_found _ _ _ E) as (s & image & _ & Hi & _).
    rewrite (extractStep_found _ _ _ _ E Hi). cbv zeta.
    destruct (truthy _ && streq _ _) eqn:Hdup.
    + right; left. exists i, image. apply andb_true_iff in Hdup as [Hp _]. done.
    + case_match; [by left |]. right; right; left. exists i.
      split_and!; [done | by eapply lookup_lt_Some | done].
  - rewrite (extractStep_fresh _ _ E). case_match; [by left |]. by do 3 right.
Qed.

(** X3. A turn of the extraction loop never removes or moves a record:
    the sequence keeps its length or grows by one element, and every
    record stays at its position, except the one at the position found
    for the identity of the group. *)
Theorem extractStep_keeps_records (st : ExtractState) (g : Group.t) :
  length (ret st) <= length (ret (extractStep st g)) <= S (length (ret st)) /\
  forall j image,
    ret st !! j = Some image ->
    getImageIndex (ret st) (getImageId (Group.content g)) <> Some j ->
    ret (extractStep st g) !! j = Some image.
Proof.
  destruct (extractStep_cases st g)
    as [-> | [(i & image & _ & _ & _ & ->) | [(i & Hi & Hlt & ->) | (_ & ->)]]];
    cbn [ret].
  - split; [lia | done].
  - rewrite length_app. simpl. split; [lia |].
    intros j r Hj _. by apply lookup_app_l_Some.
  - rewrite length_insert. split; [lia |].
    intros j r Hj Hne. rewrite list_lookup_insert_ne; [done | congruence].
  - rewrite length_app. simpl. split; [lia |].
    intros j r Hj _. by apply lookup_app_l_Some.
Qed.

(** Where the records of a run come from. *)
Lemma extractFromGroups_from_groups gs :
  next (extractFromGroups gs) <= length gs /\
  length (ret (extractFromGroups gs)) <= length gs /\
  Forall (fun r =>
    addr r < next (extractFromGroups gs) /\
    exists g, g ∈ gs /\ r = newImageData (addr r) (Group.content g))
    (ret (extractFromGroups gs)).
Proof.
  induction gs as [|g gs (Hnext & Hlen & Hall)] using rev_ind.
  - split_and!; [done | done | by constructor].
  - rewrite extractFromGroups_snoc, length_app. simpl.
    assert (Forall (fun r =>
              addr r < S (next (extractFromGroups gs)) /\
              exists g0, g0 ∈ gs ++ [g] /\ r = newImageData (addr r) (Group.content g0))
              (ret (extractFromGroups gs))) as Hold.
    { eapply Forall_impl; [exact Hall |]. intros r (Ha & g0 & Hg0 & Hr).
      split; [lia |]. exists g0. split; [|done]. apply elem_of_app. by left. }
    assert (Forall (fun r =>
              addr r < S (next (extractFromGroups gs)) /\
              exists g0, g0 ∈ gs ++ [g] /\ r = newImageData (addr r) (Group.content g0))
              [newImageData (next (extractFromGroups gs)) (Group.content g)]) as Hnew.
    { constructor; [|done]. split; [simpl; lia |]. exists g.
      split; [|done]. apply elem_of_app. right. by apply list_elem_of_singleton. }
    destruct (extractStep_cases (extractFromGroups gs) g)
      as [-> | [(i & image & _ & Hi & _ & ->) | [(i & Hi & Hlt & ->) | (_ & ->)]]];
      cbn [ret next].
    + split_and!; [lia | lia |]. eapply Forall_impl; [exact Hall |].
      intros r (Ha & g0 & Hg0 & Hr). split; [done |]. exists g0.
      split; [|done]. apply elem_of_app. by left.
    + rewrite length_app. simpl. split_and!; [lia | lia |].
      assert (Forall (fun r =>
                addr r < next (extractFromGroups gs) /\
                exists g0, g0 ∈ gs ++ [g] /\ r = newImageData (addr r) (Group.content g0))
                (ret (extractFromGroups gs))) as Hold'.
      { eapply Forall_impl; [exact Hall |]. intros r (Ha & g0 & Hg0 & Hr).
        split; [done |]. exists g0. split; [|done]. apply elem_of_app. by left. }
      apply Forall_app. split; [done |]. constructor; [|done].
      by eapply Forall_lookup_1 in Hold'.
    + rewrite length_insert. split_and!; [lia | lia |].
      apply Forall_insert; [done | by inversion Hnew].
    + rewrite length_app. simpl. split_and!; [lia | lia |]. by apply Forall_app.
Qed.

(** X4. Every record that [extractFromRtf] returns was built from one of
    the located groups, and there are at most as many records as located
    groups: its identity, its type and its payload are those of that
    group (the payload being its content without whitespace when the
    type is supported, and null otherwise). *)
Theorem extractFromRtf_from_located_groups (rtf : str) :
  match located rtf with
  | Some wholeImages =>
      length (extractFromRtf rtf) <= length wholeImages /\
      Forall (fun r =>
        exists g, g ∈ wholeImages /\
          let currentImage := Group.content g in
          ImageData.id (obj r) = getImageId currentImage /\
          ImageData.type (obj r) = getImageType currentImage /\
          ImageData.hex (obj r) =
            if isSupportedType (getImageType currentImage)
            then Some (getImageContent currentImage) else None)
        (extractFromRtf rtf)
  | None => extractFromRtf rtf = []
  end.
Proof.
  rewrite extractFromRtf_located. destruct (located rtf) as [gs|]; [|done].
  destruct (extractFromGroups_from_groups gs) as (_ & Hlen & Hall).
  split; [done |]. eapply Forall_impl; [exact Hall |].
  intros r (_ & g & Hg & ->). exists g. done.
Qed.

Lemma replaceEach_removes (c : ascii -> bool) (s : str) :
  Forall (fun x => c x = false) (replaceEach c [] s).
Proof.
  induction s as [|x s IH]; simpl; [by constructor |].
  destruct (c x) eqn:Hx; simpl; [done | by constructor].
Qed.

(** X5. The payload of every record that [extractFromRtf] returns holds
    no whitespace character, however the hex digits were wrapped in the
    RTF. *)
Theorem extractFromRtf_payload_without_whitespace (rtf : str) :
  Forall (fun r =>
    forall hex, ImageData.hex (obj r) = Some hex ->
                Forall (fun c => isSpace c = false) hex)
    (extractFromRtf rtf).
Proof.
  rewrite extractFromRtf_located. destruct (located rtf) as [gs|]; [|by constructor].
  destruct (extractFromGroups_from_groups gs) as (_ & _ & Hall).
  eapply Forall_impl; [exact Hall |]. intros r (_ & g & _ & ->) hex. simpl.
  case_match; [|done]. intros [= <-]. apply replaceEach_removes.
Qed.

Lemma findIndex_None {A} (p : A -> bool) l :
  Forall (fun x => p x = false) l -> findIndex p l = None.
Proof.
  induction 1 as [|x l Hx _ IH]; simpl; [done |]. by rewrite Hx, IH.
Qed.

(** X6. Groups are merged by identity only: when no two located groups
    carry the same identity marker (groups without a marker are all
    different) and none is a WordArt shape, the loop allocates one record
    per group, in the order of the groups. *)
Theorem distinct_identities_one_record_each (wholeImages : list Group.t) :
  NoDup (omap (fun g => getImageId (Group.content g)) wholeImages) ->
  Forall (fun g => ~ contains (lit "\defshp") (Group.content g)) wholeImages ->
  extractFromGroups wholeImages =
    {| ret := imap (fun i g => newImageData i (Group.content g)) wholeImages;
       next := length wholeImages |}.
Proof.
  induction wholeImages as [|g gs IH] using rev_ind; intros Hdup Hshape; [done |].
  rewrite omap_app in Hdup. apply NoDup_app in Hdup as (Hdup & Hfresh & _).
  apply Forall_app in Hshape as [Hshape Hg]. rewrite Forall_singleton in Hg.
  rewrite extractFromGroups_snoc, IH by done.
  rewrite extractStep_fresh; cbn [ret next].
  - destruct (isWordArtShape (Group.content g)) eqn:Hs.
    { exfalso. apply Hg. by apply isWordArtShape_true. }
    rewrite imap_app, length_app. simpl. by rewrite Nat.add_0_r, Nat.add_1_r.
  - destruct (getImageId (Group.content g)) as [id|] eqn:Hid; [|done].
    apply findIndex_None, Forall_forall. intros r (i & g' & -> & Hi)%elem_of_lookup_imap.
    apply bool_decide_eq_false. simpl. intros Hsame.
    eapply (Hfresh id).
    + apply list_elem_of_omap. exists g'. split; [by eapply list_elem_of_lookup_2 | done].
    + simpl. rewrite Hid. apply list_elem_of_singleton. done.
Qed.
End ExtractMore.

Section ExtractShared.
Context `{RtfFilter}.

Lemma extractFromGroups_shared gs :
  forall i j r,
    i <> j ->
    ret (extractFromGroups gs) !! i = Some r ->
    ret (extractFromGroups gs) !! j = Some r ->
    truthy (ImageData.hex (obj r)) = true.
Proof.
  induction gs as [|g gs IH] using rev_ind; [done |].
  rewrite extractFromGroups_snoc.
  pose proof (extractFromGroups_Inv gs) as HI. unfold Inv in HI.
  set (st := extractFromGroups gs) in *.
  assert (forall k r, ret st !! k = Some r ->
                      r <> newImageData (next st) (Group.content g)) as Hfresh.
  { intros k r Hk ->. eapply Forall_lookup_1 in HI as [Ha _]; [|done].
    simpl in Ha. lia. }
  assert (forall (l : list Ref) x i j r,
            (forall k, l !! k = Some x -> truthy (ImageData.hex (obj x)) = true) ->
            (forall i j r, i <> j -> l !! i = Some r -> l !! j = Some r ->
                           truthy (ImageData.hex (obj r)) = true) ->
            i <> j -> (l ++ [x]) !! i = Some r -> (l ++ [x]) !! j = Some r ->
            truthy (ImageData.hex (obj r)) = true) as Hsnoc.
  { intros l x i j r Hx Hl Hne Hi Hj.
    apply lookup_snoc_Some in Hi as [[Hi Hi'] | [Hi ->]];
      apply lookup_snoc_Some in Hj as [[Hj Hj'] | [Hj Hr]].
    - exact (Hl i j r Hne Hi' Hj').
    - subst. by eapply Hx.
    - by eapply Hx.
    - lia. }
  destruct (extractStep_cases st g)
    as [-> | [(k & image & _ & Hk & Hp & ->) | [(k & Hk & Hlt & ->) | (_ & ->)]]];
    cbn [ret].
  - exact IH.
  - intros i j r. apply Hsnoc; [done | exact IH].
  - intros i j r Hne Hi Hj.
    destruct (decide (k = i)) as [Eki | Hki], (decide (k = j)) as [Ekj | Hkj];
      try subst k.
    + by subst.
    + rewrite list_lookup_insert_eq in Hi by done.
      rewrite list_lookup_insert_ne in Hj by done.
      injection Hi as <-. by apply Hfresh in Hj.
    + rewrite list_lookup_insert_eq in Hj by done.
      rewrite list_lookup_insert_ne in Hi by done.
      injection Hj as <-. by apply Hfresh in Hi.
    + rewrite list_lookup_insert_ne in Hi, Hj by done. exact (IH i j r Hne Hi Hj).
  - intros i j r. apply Hsnoc; [|exact IH].
    intros k Hk. by apply Hfresh in Hk.
Qed.

(** X7. Only records with a payload are shared: when the same reference
    stands at two positions of the sequence that [extractFromRtf]
    returns, its payload is a non-empty string and its type is a
    supported one. *)
Theorem shared_record_has_payload (rtf : str) (i j : nat) (image : Ref) :
  i <> j ->
  extractFromRtf rtf !! i = Some image ->
  extractFromRtf rtf !! j = Some image ->
  truthy (ImageData.hex (obj image)) = true /\
  ImageData.type (obj image) ∈ supportedImageTypes.
Proof.
  intros Hne Hi Hj.
  assert (truthy (ImageData.hex (obj image)) = true) as Hp.
  { rewrite extractFromRtf_located in Hi, Hj.
    destruct (located rtf) as [gs|]; [|done]. by eapply extractFromGroups_shared. }
  split; [done |].
  pose proof (extractFromRtf_payload rtf) as Hall.
  eapply Forall_lookup_1 in Hall; [|exact Hi]. apply Hall.
  by destruct (ImageData.hex (obj image)).
Qed.
End ExtractShared.

(** ** Encoding and reconciling *)

Section ReconcileMore.
Context `{RtfFilter} `{Tools} `{RegExpEngine}.
Implicit Types (imgTags : list str) (newSrcValues : list (option str))
  (hexImages : list Ref) (html : str) (log : list Report).

(** X8. What the encoder returns is null or the data URL of the payload,
    which begins with [data:image/png;base64,] or
    [data:image/jpeg;base64,]: it is never empty and never begins with
    [file://]. *)
Theorem createSrcWithBase64_data_url (img : ImageData.t) (src : str) :
  createSrcWithBase64 img = Normal (Some src) ->
  (exists hex, ImageData.hex img = Some hex /\
               src = dataUrl (ImageData.type img) hex) /\
  (beginsWith (lit "data:image/png;base64,") src \/
   beginsWith (lit "data:image/jpeg;base64,") src) /\
  ~ beginsWith (lit "file://") src.
Proof.
  unfold createSrcWithBase64.
  destruct (isSupportedType (ImageData.type img)) eqn:Hs; [|done]. cbn [negb].
  destruct (truthy (Some (ImageData.type img))); [|done].
  destruct (ImageData.hex img) as [hex|]; [|done]. intros [= <-].
  apply isSupportedType_true in Hs. unfold supportedImageTypes in Hs.
  apply elem_of_cons in Hs as [-> | Hs]; [|apply list_elem_of_singleton in Hs as ->].
  - split_and!; [by exists hex | left; eexists; reflexivity
                | intros [rest Hr]; simpl in Hr; discriminate].
  - split_and!; [by exists hex | right; eexists; reflexivity
                | intros [rest Hr]; simpl in Hr; discriminate].
Qed.

Lemma createSrcWithBase64_null img :
  createSrcWithBase64 img = Normal None ->
  ImageData.type img ∉ supportedImageTypes.
Proof.
  unfold createSrcWithBase64. rewrite <- isSupportedType_true.
  destruct (isSupportedType (ImageData.type img)) eqn:Hs; [|done]. cbn [negb].
  destruct (ImageData.type img); [by vm_compute in Hs |]. simpl.
  by destruct (ImageData.hex img).
Qed.

Lemma createSrcWithBase64_supported img src :
  createSrcWithBase64 img = Normal (Some src) ->
  ImageData.type img ∈ supportedImageTypes.
Proof.
  unfold createSrcWithBase64. rewrite <- isSupportedType_true.
  by destruct (isSupportedType (ImageData.type img)).
Qed.

(** The loop of [handleRtfImages] over tags, encoded sources and records
    of the same length. *)
Section Loop.
Variables (imgTags : list str) (newSrcValues : list (option str))
  (hexImages : list Ref).
Hypothesis Hrecords : length hexImages = length imgTags.
Hypothesis Hencoded : forall i image,
  hexImages !! i = Some image ->
  exists v, newSrcValues !! i = Some v /\ createSrcWithBase64 (obj image) = Normal v.

(** The three ways a turn can go: the tag is skipped, the unsupported
    image is reported, or [replace] is run. *)
Lemma rewriteTag_outcome i html :
  i < length imgTags ->
  rewriteTag imgTags newSrcValues hexImages i html = (Normal html, []) \/
  (exists imgTag image,
      imgTags !! i = Some imgTag /\ beginsWith (lit "file://") imgTag /\
      hexImages !! i = Some image /\
      (ImageData.type (obj image) ∉ supportedImageTypes) /\
      rewriteTag imgTags newSrcValues hexImages i html =
        (Normal html, [UnsupportedImage (ImageData.type (obj image)) i])) \/
  (exists imgTag image src,
      imgTags !! i = Some imgTag /\ beginsWith (lit "file://") imgTag /\
      hexImages !! i = Some image /\
      ImageData.type (obj image) ∈ supportedImageTypes /\
      rewriteTag imgTags newSrcValues hexImages i html =
        match replaceFirst (imgPattern imgTag) html (lit "$1" ++ src) with
        | Some html' => (Normal html', [])
        | None => (Throw SyntaxError, [])
        end).
Proof.
  intros Hi. unfold rewriteTag.
  destruct (lookup_lt_is_Some_2 imgTags i Hi) as [imgTag HimgTag].
  destruct (lookup_lt_is_Some_2 hexImages i) as [image Himage]; [lia |].
  destruct (Hencoded _ _ Himage) as (v & Hv & Hsrc).
  rewrite HimgTag, Hv, Himage. case_bool_decide as Hfile; [|by left].
  apply indexOf_beginsWith in Hfile. right. simpl.
  destruct v as [[|c src]|].
  - by apply createSrcWithBase64_nonempty in Hsrc.
  - right. exists imgTag, image, (c :: src).
    split_and!; try done. by eapply createSrcWithBase64_supported.
  - left. exists imgTag, image.
    split_and!; try done. by apply createSrcWithBase64_null.
Qed.

Lemma rewriteFrom_outcome n : forall i html log,
  i + n <= length imgTags ->
  let o := rewriteFrom imgTags newSrcValues hexImages n i html log in
  (exists said, reports o = log ++ said /\
                Forall (ReportedUnsupported imgTags hexImages) said) /\
  match value o with
  | Normal out => out = html \/ Rewritable imgTags hexImages
  | Throw e =>
      e = SyntaxError /\
      exists imgTag html' src,
        imgTag ∈ imgTags /\ beginsWith (lit "file://") imgTag /\
        replaceFirst (imgPattern imgTag) html' src = None
  end.
Proof.
  induction n as [|n IH]; intros i html log Hlen; cbn [rewriteFrom].
  - split; [|by left]. exists []. by rewrite app_nil_r.
  - destruct (rewriteTag_outcome i html)
      as [-> | [(imgTag & image & Htag & Hfile & Himage & Htype & ->)
               | (imgTag & image & src & Htag & Hfile & Himage & Htype & ->)]]; [lia | | |].
    + rewrite app_nil_r. apply IH. lia.
    + destruct (IH (S i) html (log ++ [UnsupportedImage (ImageData.type (obj image)) i]))
        as [(said & Hsaid & Hall) Hvalue]; [lia |].
      split; [|done]. eexists. rewrite Hsaid, <- app_assoc. split; [done |].
      constructor; [|done]. by exists i, imgTag, image.
    + assert (Rewritable imgTags hexImages) as Hrew by (by exists i, imgTag, image).
      destruct (replaceFirst (imgPattern imgTag) html (lit "$1" ++ src)) as [html'|] eqn:Hr.
      * destruct (IH (S i) html' (log ++ [])) as [Hsaid Hvalue]; [lia |].
        rewrite app_nil_r in Hsaid. rewrite app_nil_r in Hvalue |- *.
        split; [done |]. destruct (value _); [by right | done].
      * simpl. split; [exists []; by rewrite !app_nil_r |]. split; [done |].
        exists imgTag, html, (lit "$1" ++ src).
        split_and!; [by eapply list_elem_of_lookup_2 | done | done].
Qed.

Lemma isSupportedType_false t :
  isSupportedType t = false <-> t ∉ supportedImageTypes.
Proof. apply bool_decide_eq_false. Qed.

(** A loop that runs to its end reports every tag that begins with
    [file://] and faces a record that is not supported, and nothing
    else. *)
Lemma rewriteFrom_reports n : forall i html log out,
  i + n = length imgTags ->
  value (rewriteFrom imgTags newSrcValues hexImages n i html log) = Normal out ->
  reports (rewriteFrom imgTags newSrcValues hexImages n i html log) =
    log ++ unsupportedReportsFrom i (drop i imgTags) (drop i hexImages).
Proof.
  induction n as [|n IH]; intros i html log out Hlen; cbn [rewriteFrom].
  - intros _. rewrite drop_ge by lia. by rewrite app_nil_r.
  - destruct (lookup_lt_is_Some_2 imgTags i) as [imgTag HimgTag]; [lia |].
    destruct (lookup_lt_is_Some_2 hexImages i) as [image Himage]; [lia |].
    rewrite (drop_S _ _ _ HimgTag), (drop_S _ _ _ Himage). cbn [unsupportedReportsFrom].
    destruct (rewriteTag_outcome i html)
      as [Hturn | [(imgTag' & image' & Htag & Hfile & Himage' & Htype & Hturn)
                  | (imgTag' & image' & src & Htag & Hfile & Himage' & Htype & Hturn)]];
      [lia | | |].
    + assert (startsWith (lit "file://") imgTag &&
              negb (isSupportedType (ImageData.type (obj image))) = false) as ->.
      { destruct (startsWith _ imgTag) eqn:Hs; [|done].
        destruct (isSupportedType _) eqn:Ht; [done |]. exfalso.
        unfold rewriteTag in Hturn. rewrite HimgTag in Hturn.
        rewrite bool_decide_eq_true_2 in Hturn by (by apply indexOf_zero).
        destruct (Hencoded _ _ Himage) as (v & Hv & Hsrc).
        rewrite Hv, Himage in Hturn. simpl in Hturn.
        destruct v as [[|c src]|]; try done.
        apply createSrcWithBase64_supported, isSupportedType_true in Hsrc. congruence. }
      rewrite Hturn, app_nil_r. simpl. intros Hout. by rewrite (IH _ _ _ out) by (lia || done).
    + assert (imgTag' = imgTag) as -> by congruence.
      assert (image' = image) as -> by congruence.
      apply indexOf_beginsWith, indexOf_zero in Hfile.
      apply isSupportedType_false in Htype. rewrite Hfile, Htype, Hturn. simpl.
      intros Hout. rewrite (IH _ _ _ out) by (lia || done). by rewrite <- app_assoc.
    + assert (imgTag' = imgTag) as -> by congruence.
      assert (image' = image) as -> by congruence.
      apply isSupportedType_true in Htype. rewrite Htype, andb_false_r, Hturn.
      destruct (replaceFirst _ _ _) as [html'|]; [|done].
      rewrite app_nil_r. simpl. intros Hout. by rewrite (IH _ _ _ out) by (lia || done).
Qed.

(** A loop without a record of a supported type runs to its end and
    changes nothing. *)
Lemma rewriteFrom_all_unsupported n : forall i html log,
  i + n <= length imgTags ->
  Forall (fun r => ImageData.type (obj r) ∉ supportedImageTypes) hexImages ->
  value (rewriteFrom imgTags newSrcValues hexImages n i html log) = Normal html.
Proof.
  induction n as [|n IH]; intros i html log Hlen Hall; cbn [rewriteFrom]; [done |].
  destruct (rewriteTag_outcome i html)
    as [-> | [(imgTag & image & _ & _ & _ & _ & ->)
             | (imgTag & image & src & _ & _ & Himage & Htype & _)]]; [lia | | |].
  - apply IH; [lia | done].
  - apply IH; [lia | done].
  - by eapply Forall_lookup_1 in Hall.
Qed.
End Loop.

Lemma handleRtfImages_outcome html rtf imgTags :
  let o := handleRtfImages html rtf imgTags in
  let hexImages := extractFromRtf rtf in
  ((reports o = [FailedImageExtraction (length hexImages) (length imgTags)] /\
    hexImages <> [] /\ length hexImages <> length imgTags /\ value o = Normal html) \/
   Forall (ReportedUnsupported imgTags hexImages) (reports o)) /\
  match value o with
  | Normal out =>
      out = html \/
      (length imgTags = length hexImages /\ Rewritable imgTags hexImages)
  | Throw e =>
      e = SyntaxError /\
      exists imgTag html' src,
        imgTag ∈ imgTags /\ beginsWith (lit "file://") imgTag /\
        replaceFirst (imgPattern imgTag) html' src = None
  end.
Proof.
  cbv zeta. unfold handleRtfImages.
  destruct (length (extractFromRtf rtf) =? 0) eqn:E; [split; [by right | by left] |].
  destruct (encoded rtf) as (vs & -> & Hlen & Hnth). rewrite Hlen.
  destruct (length imgTags =? length (extractFromRtf rtf)) eqn:E'; cbn [negb].
  - apply Nat.eqb_eq in E'.
    destruct (rewriteFrom_outcome imgTags vs (extractFromRtf rtf) (eq_sym E') Hnth
                (length imgTags) 0 html []) as [(said & -> & Hall) Hvalue]; [lia |].
    split; [by right |]. destruct (value _); [|done].
    destruct Hvalue as [-> | Hrew]; [by left | by right].
  - apply Nat.eqb_neq in E'. cbn [value reports]. split; [|by left]. left.
    split_and!; [done | | congruence | done].
    intros Hnil. by rewrite Hnil in E.
Qed.

(** X9. The reports of [handleRtfImages] are either the single report of
    a count mismatch, in which case the html is returned as it was, or
    reports of unsupported images only, each one carrying the index of a
    tag that begins with [file://] and the unsupported type of the
    record at that index. *)
Theorem handleRtfImages_reports (html rtf : str) (imgTags : list str) :
  let o := handleRtfImages html rtf imgTags in
  let hexImages := extractFromRtf rtf in
  (reports o = [FailedImageExtraction (length hexImages) (length imgTags)] /\
   hexImages <> [] /\ length hexImages <> length imgTags /\ value o = Normal html) \/
  Forall (ReportedUnsupported imgTags hexImages) (reports o).
Proof. apply handleRtfImages_outcome. Qed.

(** X10. When there are as many tags as records and [handleRtfImages]
    returns, its reports are exactly one unsupported image for every tag
    that begins with [file://] and faces a record whose type is not
    supported, in the order of the tags. *)
Theorem handleRtfImages_reports_when_returning (html rtf out : str)
    (imgTags : list str) :
  length imgTags = length (extractFromRtf rtf) ->
  value (handleRtfImages html rtf imgTags) = Normal out ->
  reports (handleRtfImages html rtf imgTags) =
    unsupportedReportsFrom 0 imgTags (extractFromRtf rtf).
Proof.
  intros Hlen. destruct (encoded rtf) as (vs & Hvs & _ & Hnth).
  rewrite (handleRtfImages_loop html _ _ _ Hlen Hvs). intros Hout.
  by rewrite (rewriteFrom_reports _ _ _ (eq_sym Hlen) Hnth _ _ _ _ out).
Qed.

(** X14. When no record is of a supported type (the RTF holds shapes and
    metafiles only) and there are as many tags as records,
    [handleRtfImages] returns the html as it was, whatever the paths
    of the tags are. *)
Theorem handleRtfImages_all_unsupported (html rtf : str) (imgTags : list str) :
  length imgTags = length (extractFromRtf rtf) ->
  Forall (fun r => ImageData.type (obj r) ∉ supportedImageTypes) (extractFromRtf rtf) ->
  value (handleRtfImages html rtf imgTags) = Normal html.
Proof.
  intros Hlen Hall. destruct (encoded rtf) as (vs & Hvs & _ & Hnth).
  rewrite (handleRtfImages_loop html _ _ _ Hlen Hvs).
  apply (rewriteFrom_all_unsupported _ _ _ (eq_sym Hlen) Hnth); [lia | done].
Qed.

(** X11. The filter can fail in one way only: every application either
    returns an html, or throws the SyntaxError of a pattern that the
    engine rejects, a pattern made from a scanned source that begins
    with [file://].  It never throws a TypeError. *)
Theorem image_throws_only_SyntaxError (html : str) (editor : Editor.t) (rtf : str) :
  (exists out, value (image html editor rtf) = Normal out) \/
  (value (image html editor rtf) = Throw SyntaxError /\
   exists imgTag html' src,
     imgTag ∈ extractTagsFromHtml html /\ beginsWith (lit "file://") imgTag /\
     replaceFirst (imgPattern imgTag) html' src = None).
Proof.
  unfold image, handleBlobImages. repeat case_match; try (left; by eexists).
  all: destruct (handleRtfImages_outcome html rtf (extractTagsFromHtml html)) as [_ Hv].
  all: destruct (value (handleRtfImages _ _ _)) as [out|e]; [left; by eexists |].
  all: destruct Hv as [-> Hv]; by right.
Qed.

(** X12. The filter changes the html only when the editor allows images,
    the RTF is not empty, there are as many scanned tags as extracted
    records, and some tag that begins with [file://] faces a record of a
    supported type. *)
Theorem image_changes_only_if (html : str) (editor : Editor.t) (rtf out : str) :
  value (image html editor rtf) = Normal out ->
  out <> html ->
  (forall activeFilter,
      Editor.activeFilter editor = Some activeFilter ->
      Filter.check activeFilter (lit "img[src]") = true) /\
  rtf <> [] /\
  length (extractTagsFromHtml html) = length (extractFromRtf rtf) /\
  Rewritable (extractTagsFromHtml html) (extractFromRtf rtf).
Proof.
  unfold image, handleBlobImages. intros Hout Hne.
  destruct (Editor.activeFilter editor) as [activeFilter|] eqn:Hf.
  - destruct (Filter.check activeFilter (lit "img[src]")) eqn:Hc; simpl in Hout;
      [|congruence].
    destruct (length (extractTagsFromHtml html) =? 0); [simpl in Hout; congruence |].
    destruct rtf as [|c rtf]; [simpl in Hout; congruence |]. simpl in Hout.
    destruct (handleRtfImages_outcome html (c :: rtf) (extractTagsFromHtml html))
      as [_ Hv].
    rewrite Hout in Hv. destruct Hv as [-> | [Hlen Hrew]]; [done |].
    split_and!; [by intros ? [= <-] | done | done | done].
  - destruct (length (extractTagsFromHtml html) =? 0); [simpl in Hout; congruence |].
    destruct rtf as [|c rtf]; [simpl in Hout; congruence |]. simpl in Hout.
    destruct (handleRtfImages_outcome html (c :: rtf) (extractTagsFromHtml html))
      as [_ Hv].
    rewrite Hout in Hv. destruct Hv as [-> | [Hlen Hrew]]; [done |].
    split_and!; [done | done | done | done].
Qed.
End ReconcileMore.

(** ** Scanned sources *)

Lemma Scanned_sources html vs :
  Scanned html vs ->
  Forall (fun v => v <> [] /\ Forall (fun c => c <> dquote) v /\
                   contains (lit "src=" ++ [dquote] ++ v) html) vs /\
  12 * length vs <= length html.
Proof.
  induction 1 as [html _ | pre m v post vs (a & b & -> & Ha & _ & Hv & Fv & Hb & _) _ _
                              [IHall IHlen]].
  - split; [by constructor | simpl; lia].
  - split.
    + constructor.
      * split_and!; [done | done |].
        exists (pre ++ lit "<img" ++ a), (b ++ post).
        by rewrite <- !app_assoc.
      * eapply Forall_impl; [exact IHall |].
        intros v' (Hv' & Fv' & pre' & post' & ->). split_and!; [done | done |].
        exists (pre ++ (lit "<img" ++ a ++ (lit "src=" ++ [dquote]) ++ v ++ b) ++ pre'),
          post'.
        by rewrite <- !app_assoc.
    + assert (0 < length a /\ 0 < length v /\ 0 < length b) as (? & ? & ?).
      { destruct a, v, b; try done. simpl. lia. }
      rewrite !length_app. simpl. lia.
Qed.

(** X13. Every source that [extractTagsFromHtml] returns is a non-empty
    string without double quote that stands in the html right after
    [src=] and a double quote; and as a match of the pattern takes at
    least 12 characters, the html is at least 12 times as long as the
    number of sources. *)
Theorem extractTagsFromHtml_sources (html : str) :
  Forall (fun v => v <> [] /\ Forall (fun c => c <> dquote) v /\
                   contains (lit "src=" ++ [dquote] ++ v) html)
    (extractTagsFromHtml html) /\
  12 * length (extractTagsFromHtml html) <= length html.
Proof. apply Scanned_sources, execLoop_scanned. lia. Qed.

(** ** More runs *)

Section MoreRuns.
Import Reference Examples MoreExamples.

(** A run of the theorem of X6: three groups, three records. *)
Lemma distinct_identities_one_record_each_witness :
  (NoDup (omap (fun g => getImageId (Group.content g)) threeImages) /\
   Forall (fun g => ~ contains (lit "\defshp") (Group.content g)) threeImages) /\
  ret (extractFromGroups threeImages) =
    imap (fun i g => newImageData i (Group.content g)) threeImages.
Proof.
  assert (NoDup (omap (fun g => getImageId (Group.content g)) threeImages)) as Hdup.
  { apply (@bool_decide_unpack _ (NoDup_dec _)). by vm_compute. }
  assert (Forall (fun g => ~ contains (lit "\defshp") (Group.content g)) threeImages)
    as Hshape.
  { repeat constructor; intros Hs%isWordArtShape_true; by vm_compute in Hs. }
  split; [done |].
  by rewrite (distinct_identities_one_record_each threeImages Hdup Hshape).
Defined.

(** A run of the theorem of X7: the same PNG image twice. *)
Lemma shared_record_has_payload_witness :
  let image := newImageData 0 (lit "{\pict\pngblip{\*\blipuid 0a1b}8950}") in
  (0 <> 1 /\ extractFromRtf rtfTwicePng !! 0 = Some image /\
   extractFromRtf rtfTwicePng !! 1 = Some image) /\
  truthy (ImageData.hex (obj image)) = true /\
  ImageData.type (obj image) ∈ supportedImageTypes.
Proof.
  intros image. split; [split_and!; [lia | by vm_compute..] |].
  apply (shared_record_has_payload rtfTwicePng 0 1 image); [lia | by vm_compute..].
Defined.

(** A run of the theorem of X8: the data URL of two bytes. *)
Lemma createSrcWithBase64_data_url_witness :
  let img := {| ImageData.id := None; ImageData.hex := Some (lit "8950");
                ImageData.type := lit "image/png" |} in
  createSrcWithBase64 img = Normal (Some (lit "data:image/png;base64,iVA=")) /\
  ~ beginsWith (lit "file://") (lit "data:image/png;base64,iVA=").
Proof.
  intros img0.
  assert (createSrcWithBase64 img0 = Normal (Some (lit "data:image/png;base64,iVA=")))
    as Hsrc by (by vm_compute).
  split; [done |]. apply (createSrcWithBase64_data_url img0 _ Hsrc).
Defined.

(** A run of the theorem of X10: an EMF image and a PNG image, each
    facing a tag that begins with [file://]. *)
Lemma handleRtfImages_reports_when_returning_witness :
  let html := img "file://a" ++ img "file://b" in
  let out := img "file://a" ++ img "data:image/png;base64,iVA=" in
  let imgTags := [lit "file://a"; lit "file://b"] in
  (length imgTags = length (extractFromRtf rtfEmfPng) /\
   value (handleRtfImages html rtfEmfPng imgTags) = Normal out) /\
  reports (handleRtfImages html rtfEmfPng imgTags) =
    [UnsupportedImage (lit "image/emf") 0].
Proof.
  intros html out imgTags.
  assert (value (handleRtfImages html rtfEmfPng imgTags) = Normal out) as Hout
    by (by vm_compute).
  split; [split; [by vm_compute | done] |].
  rewrite (handleRtfImages_reports_when_returning html rtfEmfPng out imgTags);
    [| by vm_compute | done].
  by vm_compute.
Defined.

(** A run of the theorem of X14: an EMF and a WMF image, of which the
    first faces a tag that begins with [file://]. *)
Lemma handleRtfImages_all_unsupported_witness :
  let html := img "file://a" ++ img "http://host/b.png" in
  let imgTags := [lit "file://a"; lit "http://host/b.png"] in
  (length imgTags = length (extractFromRtf rtfEmfWmf) /\
   Forall (fun r => ImageData.type (obj r) ∉ supportedImageTypes)
     (extractFromRtf rtfEmfWmf)) /\
  value (handleRtfImages html rtfEmfWmf imgTags) = Normal html.
Proof.
  intros html imgTags.
  assert (Forall (fun r => ImageData.type (obj r) ∉ supportedImageTypes)
            (extractFromRtf rtfEmfWmf)) as Hall.
  { change (extractFromRtf rtfEmfWmf)
      with [newImageData 0 (lit "{\pict\emfblip 0102}");
            newImageData 1 (lit "{\pict\wmetafile8 0304}")].
    repeat constructor; intros Hs%isSupportedType_true; by vm_compute in Hs. }
  split; [split; [by vm_compute | done] |].
  apply (handleRtfImages_all_unsupported html rtfEmfWmf imgTags); [by vm_compute | done].
Defined.

(** A run of the theorem of X12: one tag, one PNG image; and a run of
    the filter that throws, on a path with an open parenthesis. *)
Lemma image_changes_only_if_witness :
  let html := img "file://a" in
  let out := img "data:image/png;base64,iVA=" in
  (value (image html editor rtfOnePng) = Normal out /\ out <> html) /\
  Rewritable (extractTagsFromHtml html) (extractFromRtf rtfOnePng).
Proof.
  intros html out.
  assert (value (image html editor rtfOnePng) = Normal out) as Hout by (by vm_compute).
  assert (out <> html) as Hne by (by vm_compute).
  split; [done |]. apply (image_changes_only_if html editor rtfOnePng out Hout Hne).
Defined.

(** The filter throws when a path makes a pattern that the engine
    rejects, here an unclosed group. *)
Lemma image_throws_on_rejected_pattern :
  value (image (img "file://a(") editor rtfOnePng) = Throw SyntaxError.
Proof. by vm_compute. Qed.
End MoreRuns.
